(** * optimize-images.js: the size-constrained WebP encoding search

    A shallow embedding of [findBestEncode] (src/optimize-images.js, lines
    95-142) together with the run-wide constants it reads (lines 56-62), of
    the command-line parser (lines 28-54) and of the batch driver around the
    search (walk, processOne and main, lines 74-86 and 144-205), and the
    properties proved over that embedding.

    Numbers are the integer-valued JavaScript numbers the search handles
    (widths, qualities, byte lengths, the attempt counter), modelled in [Z];
    SCALE_STEP is a fraction, given in [Q], and [Math.floor (w * SCALE_STEP)]
    is taken as JavaScript takes it: the fraction is the double nearest to it
    and the product is rounded to a double before it is floored.  The encoder
    (sharp) is an opaque function of width and quality that either fulfils
    with a buffer or rejects; for the determinism of the search it is an
    opaque procedure on a world that it reads and changes. *)

From Stdlib Require Import String.
From Stdlib Require Import ZArith QArith Qround Qminmax List Sorted Bool Lia.
From Equations Require Import Equations.
Import ListNotations.

Local Open Scope Z_scope.

(** ** JavaScript primitives used by the search *)

Module Js.

(** [Math.round(x / 2)] for an integer [x]: halves round towards +infinity. *)
Definition round_half (x : Z) : Z := (x + 1) / 2.

(** [x || d] for a number that may be missing: [undefined] and [0] are falsy. *)
Definition or_else (x : option Z) (d : Z) : Z :=
  match x with
  | Some v => if v =? 0 then d else v
  | None => d
  end.

(** *** Numbers are IEEE-754 doubles

    A double in the normal range is [m * 2 ^ e] with a mantissa [m] of 53
    bits; an operation returns the double nearest to the exact result, the
    one with the even mantissa when two are equally near.  The range of the
    exponent is left unbounded: the numbers of the search are far from the
    subnormal range and from overflow. *)

(** The integer [k] with [2 ^ k <= n / d < 2 ^ (k + 1)], for [n, d > 0]. *)
Definition log2_ratio (n d : Z) : Z :=
  let k := Z.log2 n - Z.log2 d in
  if n * 2 ^ Z.max 0 (- k) <? d * 2 ^ Z.max 0 k then k - 1 else k.

(** The integer nearest to [n / d], the even one on a tie, for [d > 0]. *)
Definition round_even (n d : Z) : Z :=
  let q := n / d in
  let r := n mod d in
  if 2 * r <? d then q
  else if d <? 2 * r then q + 1
  else if Z.even q then q else q + 1.

(** The double nearest to [n / d], for [n, d > 0]: the exponent [e] puts
    [n / d / 2 ^ e] in [[2 ^ 52, 2 ^ 53)], where it is rounded to an integer. *)
Definition double_pos (n d : Z) : Q :=
  let e := log2_ratio n d - 52 in
  let m := round_even (n * 2 ^ Z.max 0 (- e)) (d * 2 ^ Z.max 0 e) in
  Qmake (m * 2 ^ Z.max 0 e) (Z.to_pos (2 ^ Z.max 0 (- e))).

(** The double nearest to a rational: what a numeric literal, [Number(s)] or
    an arithmetic operation with that exact value evaluates to. *)
Definition double (x : Q) : Q :=
  if 0 <? Qnum x then double_pos (Qnum x) (Zpos (Qden x))
  else if Qnum x <? 0 then - double_pos (- Qnum x) (Zpos (Qden x))
  else 0.

(** [Math.floor(w * s)] for an integer [w] (a double, below 2^53) and the
    number written as the fraction [s]: the product of two doubles is the
    double nearest to their exact product.  Rounding [s] here or before the
    clamps of line 62 is the same: rounding is monotone, the clamps compare. *)
Definition floor_mul (w : Z) (s : Q) : Z :=
  Qfloor (double (inject_Z w * double s)).

End Js.

(** ** Data model *)

Definition Buffer := list Byte.byte.

(** [buf.length] *)
Definition buf_length (b : Buffer) : Z := Z.of_nat (length b).

(** An awaited promise either fulfils with a value or rejects with an error. *)
Inductive Settled (A : Type) : Type :=
| Fulfilled (a : A)
| Rejected (e : string).
Arguments Fulfilled {A} a.
Arguments Rejected {A} e.

(** The object literals built at lines 110 and 132-138.  The one of line 110
    has no [bestEffort] property ([None]); the one of lines 132-138 has
    [bestEffort: true]. *)
Record Encoded : Type := mkEncoded {
  buf : Buffer;
  width : Z;
  quality : Z;
  bytes : Z;
  bestEffort : option bool
}.

(** [best.bestEffort ? ... : ...] (line 174): an absent property is falsy. *)
Definition truthy (f : option bool) : bool :=
  match f with Some b => b | None => false end.

(** Run-wide constants, lines 56-62 (EFFORT only reaches the encoder). *)
Record Config : Type := mkConfig {
  TARGET_BYTES : Z;
  MAX_WIDTH : Z;
  MIN_Q : Z;
  MAX_Q : Z;
  MAX_DOWNSCALES : Z;
  SCALE_STEP : Q
}.

(** [Number(args.get(k) || d)] for a flag given with a numeric value or not
    given at all: the value is a non-empty string, so it is truthy even when
    it reads as zero, and only a missing flag takes the default. *)
Definition flagOr {A} (x : option A) (d : A) : A :=
  match x with Some v => v | None => d end.

(** Lines 56-62: the constants, clamped as the source clamps them. *)
Definition configOfArgs (target maxWidth minQ maxQ downs : option Z)
    (scaleStep : option Q) : Config :=
  let min_q := Z.min 100 (Z.max 0 (flagOr minQ 65)) in
  {| TARGET_BYTES := Z.max 1 (flagOr target 300) * 1024;
     MAX_WIDTH := Z.max 1 (flagOr maxWidth 1600);
     MIN_Q := min_q;
     MAX_Q := Z.min 100 (Z.max min_q (flagOr maxQ 95));
     MAX_DOWNSCALES := Z.max 0 (flagOr downs 4);
     SCALE_STEP :=
       Qmin (99 # 100) (Qmax (1 # 2) (flagOr scaleStep (9 # 10))) |}.

(** What the clamps of lines 56-62 guarantee. *)
Record ConfigOk (c : Config) : Prop := {
  target_pos : 0 < TARGET_BYTES c;
  max_width_pos : 1 <= MAX_WIDTH c;
  min_q_nonneg : 0 <= MIN_Q c;
  min_q_le_max_q : MIN_Q c <= MAX_Q c;
  max_q_le_100 : MAX_Q c <= 100;
  downs_nonneg : 0 <= MAX_DOWNSCALES c;
  scale_lower : (1 # 2 <= SCALE_STEP c)%Q;
  scale_upper : (SCALE_STEP c <= 99 # 100)%Q
}.

(** ** Effects: awaited encoder calls

    A computation threads the log of what the run has done so far and stops
    at the first rejection.  [Encode w q] records a call of the encoder, the
    one effect of the search; [Round attempt w] marks the start of an
    iteration of the outer loop, so that statements about rounds can be read
    off the log.  The log never influences a result. *)

Inductive Event : Type :=
| Round (attempt w : Z)
| Encode (w q : Z).

Definition Log := list Event.

Record M (A : Type) : Type := mkM { run : Log -> Settled A * Log }.
Arguments mkM {A} run.
Arguments run {A} m l.

Definition ret {A} (a : A) : M A := mkM (fun l => (Fulfilled a, l)).

Definition bind {A B} (m : M A) (k : A -> M B) : M B :=
  mkM (fun l =>
    match run m l with
    | (Fulfilled a, l') => run (k a) l'
    | (Rejected e, l') => (Rejected e, l')
    end).

Definition emit (e : Event) : M unit := mkM (fun l => (Fulfilled tt, l ++ [e])).

Notation "x <- m ;; k" := (bind m (fun x => k))
  (at level 100, m at next level, right associativity).
Notation "m ;;; k" := (bind m (fun _ => k))
  (at level 100, right associativity).

Definition isEncode (e : Event) : bool :=
  match e with Encode _ _ => true | Round _ _ => false end.

(** The encoder calls of a log, and the widths of its rounds, in order. *)
Definition probes (l : Log) : Log := filter isEncode l.

Fixpoint roundWidths (l : Log) : list Z :=
  match l with
  | [] => []
  | Round _ w :: l' => w :: roundWidths l'
  | Encode _ _ :: l' => roundWidths l'
  end.

Fixpoint roundAttempts (l : Log) : list Z :=
  match l with
  | [] => []
  | Round a _ :: l' => a :: roundAttempts l'
  | Encode _ _ :: l' => roundAttempts l'
  end.

(** Probes a binary search needs on a range of [n] values. *)
Definition probeBound (n : Z) : Z :=
  if n <=? 0 then 0 else Z.log2 n + 1.

(** *** Running a computation *)

Definition outcome {A} (m : M A) : Settled A := fst (run m []).
Definition trace {A} (m : M A) : Log := snd (run m []).

(** A computation is oblivious when the log it starts from changes neither
    its result nor the events it appends. *)
Definition Oblivious {A} (m : M A) : Prop :=
  forall l, run m l = (outcome m, l ++ trace m).

(** ** Synthetic encoders and configurations *)

(** [w * q * k / d] bytes for width [w] and quality [q]. *)
Definition linearEncoder (k d : Z) (w q : Z) : Settled Buffer :=
  Fulfilled (repeat Byte.x00 (Z.to_nat (w * q * k / d))).

(** An encoder that fails below a width, as on a source it cannot resize. *)
Definition failingBelow (limit : Z) (enc : Z -> Z -> Settled Buffer)
    (w q : Z) : Settled Buffer :=
  if w <? limit then Rejected "resize failed"%string else enc w q.

(** [--target 1]: a budget of 1 KB, every other flag at its default. *)
Definition tinyConfig : Config :=
  configOfArgs (Some 1) None None None None None.

(** The record a search returns for 1024 bytes at width 1600, quality 80. *)
Definition fitOutcome : Encoded :=
  {| buf := repeat Byte.x00 1024; width := 1600; quality := 80;
     bytes := 1024; bestEffort := None |}.

(** The defaults of the command line: 300 KB, 1600 px, q in [65, 95],
    4 downscale rounds, step 0.9. *)
Definition defaultConfig : Config :=
  configOfArgs None None None None None None.

(** ** The search *)

Section Search.

Variable cfg : Config.

(** sharp's pipeline for the image at hand (lines 88-93). *)
Variable encoder : Z -> Z -> Settled Buffer.

(** [await encodeWebPBuffer(inputPath, width, quality)] *)
Definition encodeWebPBuffer (w q : Z) : M Buffer :=
  mkM (fun l => (encoder w q, l ++ [Encode w q])).

(** [Math.min(metaWidth || MAX_WIDTH, MAX_WIDTH)] (lines 97, 131, 134) *)
Definition startWidth (metaWidth : option Z) : Z :=
  Z.min (Js.or_else metaWidth (MAX_WIDTH cfg)) (MAX_WIDTH cfg).

(** Line 122: [Math.max(320, Math.floor((width || MAX_WIDTH) * SCALE_STEP))] *)
Definition nextWidth (w : Z) : Z :=
  Z.max 320
    (Js.floor_mul (Js.or_else (Some w) (MAX_WIDTH cfg)) (SCALE_STEP cfg)).

(** The record line 110 builds for a probe at quality [q] answered by [b]. *)
Definition candidate (w q : Z) (b : Buffer) : Encoded :=
  {| buf := b; width := w; quality := q; bytes := buf_length b;
     bestEffort := None |}.

(** Lines 106-115: the binary search over the quality range. *)
Equations? qualityLoop (w lo hi : Z) (bestLocal : option Encoded)
  : M (option Encoded) by wf (Z.to_nat (hi + 1 - lo)) lt :=
  qualityLoop w lo hi bestLocal with Z_le_dec lo hi := {
    | right _ => ret bestLocal
    | left _ =>
        b <- encodeWebPBuffer w (Js.round_half (lo + hi)) ;;
        if buf_length b <=? TARGET_BYTES cfg
        then qualityLoop w (Js.round_half (lo + hi) + 1) hi
               (Some (candidate w (Js.round_half (lo + hi)) b))
        else qualityLoop w lo (Js.round_half (lo + hi) - 1) bestLocal }.
Proof.
  all: unfold Js.round_half; Z.div_mod_to_equations; lia.
Qed.

(** [qualityLoop] entered as the source enters it (lines 103-104). *)
Definition qualitySearch (w : Z) : M (option Encoded) :=
  qualityLoop w (MIN_Q cfg) (MAX_Q cfg) None.

(** Lines 101-127: the outer loop; its value is [best] at line 129. *)
Equations? descentLoop (w attempt : Z) : M (option Encoded)
  by wf (Z.to_nat (MAX_DOWNSCALES cfg + 1 - attempt)) lt :=
  descentLoop w attempt with Z_le_dec attempt (MAX_DOWNSCALES cfg) := {
    | right _ => ret None
    | left _ =>
        emit (Round attempt w) ;;;
        bestLocal <- qualitySearch w ;;
        match bestLocal with
        | Some r => ret (Some r)
        | None =>
            if nextWidth w =? w then ret None
            else descentLoop (nextWidth w) (attempt + 1)
        end }.
Proof. lia. Qed.

(** Lines 129-139: the fallback encode at the starting width. *)
Definition bestEffortEncode (metaWidth : option Z) : M Encoded :=
  b <- encodeWebPBuffer (startWidth metaWidth) (MIN_Q cfg) ;;
  ret {| buf := b; width := startWidth metaWidth; quality := MIN_Q cfg;
         bytes := buf_length b; bestEffort := Some true |}.

(** Lines 95-142. *)
Definition findBestEncode (metaWidth : option Z) : M Encoded :=
  best <- descentLoop (startWidth metaWidth) 0 ;;
  match best with
  | Some r => ret r
  | None => bestEffortEncode metaWidth
  end.

(** The encode of [(w, q)] succeeds within the byte budget. *)
Definition fits (w q : Z) : Prop :=
  exists b, encoder w q = Fulfilled b /\ buf_length b <= TARGET_BYTES cfg.

(** The encode of [(w, q)] succeeds and is over the byte budget. *)
Definition exceeds (w q : Z) : Prop :=
  exists b, encoder w q = Fulfilled b /\ TARGET_BYTES cfg < buf_length b.

(** The encoder answers every quality of [[lo, hi]] at width [w]. *)
Definition answersOn (w lo hi : Z) : Prop :=
  forall q, lo <= q <= hi -> exists b, encoder w q = Fulfilled b.

(** At width [w], a higher quality of [[lo, hi]] never gives fewer bytes. *)
Definition monotoneOn (w lo hi : Z) : Prop :=
  forall q q' b b',
    lo <= q -> q <= q' -> q' <= hi ->
    encoder w q = Fulfilled b -> encoder w q' = Fulfilled b' ->
    buf_length b <= buf_length b'.

(** The event is no failed encoder call. *)
Definition answered (ev : Event) : Prop :=
  match ev with
  | Encode w q => exists b, encoder w q = Fulfilled b
  | Round _ _ => True
  end.

(** A computation propagates encoder failures when it either returns after
    encoder calls that were all answered, or rejects with the error of a
    failed encoder call that is the last thing it did. *)
Definition Propagates {A} (m : M A) : Prop :=
  match outcome m with
  | Fulfilled _ => Forall answered (trace m)
  | Rejected err =>
      exists pre w q,
        trace m = pre ++ [Encode w q] /\ Forall answered pre /\
        encoder w q = Rejected err
  end.

End Search.

(** ** The search on an encoder that lives in a world

    [encodeWebPBuffer] (lines 88-93) hands sharp a path: every call opens the
    file again and goes through sharp's caches, so what a call answers may
    depend on the state of the world at that moment, and the call leaves a
    new state behind.  Here the same lines 95-142 run on such an encoder: a
    computation threads the state of the world and stops at the first
    rejection.  Nothing else of the world reaches the search: its variables
    (width, attempt, best, lo, hi, bestLocal) are local to a call. *)

Record MW (World A : Type) : Type :=
  mkMW { runW : World -> Settled A * World }.
Arguments mkMW {World A} runW.
Arguments runW {World A} m s.

Definition retW {World A} (a : A) : MW World A :=
  mkMW (fun s => (Fulfilled a, s)).

Definition bindW {World A B} (m : MW World A) (k : A -> MW World B)
  : MW World B :=
  mkMW (fun s =>
    match runW m s with
    | (Fulfilled a, s') => runW (k a) s'
    | (Rejected e, s') => (Rejected e, s')
    end).

Section WorldSearch.

Variable World : Type.
Variable cfg : Config.

(** sharp's pipeline for the image at hand, in a world it reads and changes. *)
Variable encoderW : World -> Z -> Z -> Settled Buffer * World.

(** [await encodeWebPBuffer(inputPath, width, quality)] *)
Definition encodeWebPBufferW (w q : Z) : MW World Buffer :=
  mkMW (fun s => encoderW s w q).

(** Lines 106-115. *)
Equations? qualityLoopW (w lo hi : Z) (bestLocal : option Encoded)
  : MW World (option Encoded) by wf (Z.to_nat (hi + 1 - lo)) lt :=
  qualityLoopW w lo hi bestLocal with Z_le_dec lo hi := {
    | right _ => retW bestLocal
    | left _ =>
        bindW (encodeWebPBufferW w (Js.round_half (lo + hi))) (fun b =>
        if buf_length b <=? TARGET_BYTES cfg
        then qualityLoopW w (Js.round_half (lo + hi) + 1) hi
               (Some (candidate w (Js.round_half (lo + hi)) b))
        else qualityLoopW w lo (Js.round_half (lo + hi) - 1) bestLocal) }.
Proof.
  all: unfold Js.round_half; Z.div_mod_to_equations; lia.
Qed.

(** Lines 101-127. *)
Equations? descentLoopW (w attempt : Z) : MW World (option Encoded)
  by wf (Z.to_nat (MAX_DOWNSCALES cfg + 1 - attempt)) lt :=
  descentLoopW w attempt with Z_le_dec attempt (MAX_DOWNSCALES cfg) := {
    | right _ => retW None
    | left _ =>
        bindW (qualityLoopW w (MIN_Q cfg) (MAX_Q cfg) None) (fun bestLocal =>
        match bestLocal with
        | Some r => retW (Some r)
        | None =>
            if nextWidth cfg w =? w then retW None
            else descentLoopW (nextWidth cfg w) (attempt + 1)
        end) }.
Proof. lia. Qed.

(** Lines 95-142. *)
Definition findBestEncodeW (metaWidth : option Z) : MW World Encoded :=
  bindW (descentLoopW (startWidth cfg metaWidth) 0) (fun best =>
  match best with
  | Some r => retW r
  | None =>
      bindW (encodeWebPBufferW (startWidth cfg metaWidth) (MIN_Q cfg))
        (fun b =>
           retW {| buf := b; width := startWidth cfg metaWidth;
                   quality := MIN_Q cfg; bytes := buf_length b;
                   bestEffort := Some true |})
  end).

(** What the encoder answers to a call made in the world [s0]. *)
Definition answerIn (s0 : World) (w q : Z) : Settled Buffer :=
  fst (encoderW s0 w q).

(** The encoder is deterministic: what it answers to a call depends on the
    width and the quality asked for, not on the world the call happens in. *)
Definition deterministicEncoder : Prop :=
  forall s s' w q, fst (encoderW s w q) = fst (encoderW s' w q).

End WorldSearch.

Arguments encodeWebPBufferW {World} encoderW w q.
Arguments qualityLoopW {World} cfg encoderW w lo hi bestLocal.
Arguments descentLoopW {World} cfg encoderW w attempt.
Arguments findBestEncodeW {World} cfg encoderW metaWidth.
Arguments answerIn {World} encoderW s0 w q.
Arguments deterministicEncoder {World} encoderW.

(** An encoder that answers as [enc] does and counts its calls in the world:
    deterministic, though no call leaves the world as it found it. *)
Definition countingEncoder (enc : Z -> Z -> Settled Buffer)
    (s : nat) (w q : Z) : Settled Buffer * nat :=
  (enc w q, S s).

(** An encoder that gives out after [limit] calls, as a process that runs
    out of memory: what it answers depends on the world. *)
Definition exhaustibleEncoder (limit : nat) (enc : Z -> Z -> Settled Buffer)
    (s : nat) (w q : Z) : Settled Buffer * nat :=
  (if (s <? limit)%nat then enc w q else Rejected "out of memory"%string,
   S s).

(** ** The command line (lines 28-54) *)

(** What [args.get(key)] holds for a key that was set: [true] for a flag
    without value, or the string that followed the flag. *)
Inductive ArgValue : Type :=
| ArgTrue
| ArgString (s : string).

(** The [Map] that parseArgs fills, in insertion order. *)
Definition ArgMap := list (string * ArgValue).

(** [args.get(key)]; [None] is [undefined]. *)
Fixpoint mapGet (m : ArgMap) (key : string) : option ArgValue :=
  match m with
  | [] => None
  | (k, v) :: m' => if String.eqb k key then Some v else mapGet m' key
  end.

(** [args.set(key, v)]: an existing key keeps its place. *)
Fixpoint mapSet (m : ArgMap) (key : string) (v : ArgValue) : ArgMap :=
  match m with
  | [] => [(key, v)]
  | (k, v') :: m' =>
      if String.eqb k key then (k, v) :: m' else (k, v') :: mapSet m' key v
  end.

(** [a.startsWith("--")] *)
Definition startsWithDashes (a : string) : bool := String.prefix "--" a.

(** [a.replace(/^--/, "")] *)
Definition stripDashes (a : string) : string :=
  if String.prefix "--" a
  then String.substring 2 (String.length a - 2) a
  else a.

(** Lines 31-43: the loop over [argv], the tokens not yet read.  A token
    that follows a flag is its value unless it is missing, empty or starts
    with two dashes; a value is skipped by the [i++] of line 40. *)
Fixpoint parseLoop (argv : list string) (args : ArgMap) : ArgMap :=
  match argv with
  | [] => args
  | a :: rest =>
      if startsWithDashes a then
        match rest with
        | [] => mapSet args (stripDashes a) ArgTrue
        | next :: rest' =>
            if String.eqb next "" || startsWithDashes next
            then parseLoop rest (mapSet args (stripDashes a) ArgTrue)
            else parseLoop rest' (mapSet args (stripDashes a) (ArgString next))
        end
      else parseLoop rest args
  end.

(** What line 36 makes of the tokens [post] that follow a flag. *)
Definition valueAfter (post : list string) : ArgValue :=
  match post with
  | [] => ArgTrue
  | next :: _ =>
      if String.eqb next "" || startsWithDashes next then ArgTrue
      else ArgString next
  end.

(** Lines 28-45, on [process.argv.slice(2)]. *)
Definition parseArgs (argv : list string) : ArgMap := parseLoop argv [].

(** [!!args.get(key)] (lines 50 and 54) *)
Definition argTruthy (v : option ArgValue) : bool :=
  match v with
  | Some ArgTrue => true
  | Some (ArgString s) => negb (String.eqb s "")
  | None => false
  end.

(** [String(args.get(key) || d)] (lines 49 and 53) *)
Definition argStringOr (v : option ArgValue) (d : string) : string :=
  match v with
  | Some ArgTrue => "true"
  | Some (ArgString s) => if String.eqb s "" then d else s
  | None => d
  end.

(** ** The batch driver (lines 64-205)

    Everything the driver asks of Node, of the file system and of sharp is
    left open: the path functions, [toLowerCase], and for every path the
    answer of each asynchronous call.  The properties of the driver hold for
    any host. *)

Record Host : Type := mkHost {
  path_resolve : string -> string;
  path_join : list string -> string;
  path_extname : string -> string;
  path_basename : string -> string -> string;
  path_dirname : string -> string;
  path_relative : string -> string -> string;
  toLowerCase : string -> string;
  cwd : string;
  fs_stat : string -> Settled Z;
  fs_mkdir : string -> Settled unit;
  fs_writeFile : string -> Buffer -> Settled unit;
  fs_unlink : string -> Settled unit;
  sharp_metadata : string -> Settled (option Z);
  sharp_webp : string -> Z -> Z -> Settled Buffer
}.

(** Lines 49-54. *)
Record Options : Type := mkOptions {
  SRC_DIR : string;
  OUT_DIR : string;
  REPLACE : bool;
  DELETE_ORIG : bool
}.

(** Lines 49-54, from the parsed command line. *)
Definition optionsOfArgs (host : Host) (args : ArgMap) : Options :=
  let src := path_resolve host (argStringOr (mapGet args "src") "public") in
  let replace := argTruthy (mapGet args "replace") in
  {| SRC_DIR := src;
     OUT_DIR :=
       if replace then src
       else path_resolve host
              (argStringOr (mapGet args "out") (path_join host [src; "opt"%string]));
     REPLACE := replace;
     DELETE_ORIG := argTruthy (mapGet args "delete-originals") |}.

(** [VALID_EXT.has(ext)] (line 64) *)
Definition VALID_EXT (ext : string) : bool :=
  existsb (String.eqb ext) [".png"; ".jpg"; ".jpeg"]%string.

(** A [Dirent] of [readdir(dir, { withFileTypes: true })]: a file, a
    directory together with what reading it gives, or anything else (a
    symbolic link, a socket). *)
#[warnings="-register-all"]
Inductive Dirent : Type :=
| FileEnt (name : string)
| DirEnt (name : string) (listing : Settled (list Dirent))
| OtherEnt (name : string).

(** What the driver does to the outside, in order. *)
Inductive Action : Type :=
| Stat (p : string)
| Metadata (p : string)
| Warn (rel msg : string)
| Mkdir (p : string)
| EncodeImage (p : string) (w q : Z)
| WriteFile (p : string) (b : Buffer)
| Unlink (p : string)
| LogResult (verdict rel out : string) (srcSize size w q : Z)
| LogStart
| LogError (p msg : string)
| LogDone (count : Z)
| LogFatal (msg : string)
| Exit (code : Z).

(** An asynchronous computation of the driver: how it settles, and what it
    did until then. *)
Definition IO (A : Type) : Type := (Settled A * list Action)%type.

Definition ioRet {A} (a : A) : IO A := (Fulfilled a, []).

Definition ioBind {A B} (m : IO A) (k : A -> IO B) : IO B :=
  match m with
  | (Fulfilled a, l) => let '(r, l') := k a in (r, l ++ l')
  | (Rejected e, l) => (Rejected e, l)
  end.

(** [try { m } catch (e) { h e }] *)
Definition ioCatch {A} (m : IO A) (h : string -> IO A) : IO A :=
  match m with
  | (Fulfilled a, l) => (Fulfilled a, l)
  | (Rejected e, l) => let '(r, l') := h e in (r, l ++ l')
  end.

(** An awaited call, recorded whether it succeeds or not. *)
Definition ioCall {A} (a : Action) (r : Settled A) : IO A := (r, [a]).

Notation "x <~ m ;; k" := (ioBind m (fun x => k))
  (at level 100, m at next level, right associativity).
Notation "m ;;~ k" := (ioBind m (fun _ => k))
  (at level 100, right associativity).

(** The encoder calls of a search, as actions on the file searched. *)
Definition searchActions (p : string) (l : Log) : list Action :=
  flat_map (fun ev => match ev with
                      | Encode w q => [EncodeImage p w q]
                      | Round _ _ => []
                      end) l.

(** What processOne returns for a converted image (line 183). *)
Record Summary : Type := mkSummary {
  outPath : string;
  sum_bytes : Z;
  sum_width : Z;
  sum_quality : Z
}.

(** Lines 174-176. *)
Definition verdictOf (cfg : Config) (best : Encoded) : string :=
  if truthy (bestEffort best) then "best-effort"
  else if bytes best <=? TARGET_BYTES cfg then "✓" else "over".

Section Driver.

Variable host : Host.
Variable opts : Options.
Variable cfg : Config.

(** Lines 74-86, for one entry of the directory [dir]: the paths yielded,
    and the error thrown after them if a [readdir] fails.  The tree is the
    one the walk finds: what processOne writes while the generator is
    suspended goes to OUT_DIR, which is skipped, or next to an original, in
    a directory that has been read already. *)
Fixpoint walkEntry (dir : string) (e : Dirent) : list string * option string :=
  match e with
  | FileEnt name => ([path_join host [dir; name]], None)
  | OtherEnt name => ([], None)
  | DirEnt name listing =>
      let p := path_join host [dir; name] in
      if String.eqb (path_resolve host p) (path_resolve host (OUT_DIR opts))
      then ([], None)
      else
        match listing with
        | Rejected err => ([], Some err)
        | Fulfilled entries =>
            (fix loop (es : list Dirent) : list string * option string :=
               match es with
               | [] => ([], None)
               | e' :: es' =>
                   match walkEntry p e' with
                   | (ys, Some err) => (ys, Some err)
                   | (ys, None) => let '(zs, r) := loop es' in (ys ++ zs, r)
                   end
               end) entries
        end
  end.

(** The [for (const e of entries)] loop of line 76. *)
Fixpoint walkEntries (dir : string) (es : list Dirent)
  : list string * option string :=
  match es with
  | [] => ([], None)
  | e :: es' =>
      match walkEntry dir e with
      | (ys, Some err) => (ys, Some err)
      | (ys, None) => let '(zs, r) := walkEntries dir es' in (ys ++ zs, r)
      end
  end.

(** [walk(dir)], given what [readdir(dir)] gives. *)
Definition walk (dir : string) (listing : Settled (list Dirent))
  : list string * option string :=
  match listing with
  | Rejected err => ([], Some err)
  | Fulfilled es => walkEntries dir es
  end.

(** The directories a walk from [root] reads: [root] itself, and each
    sub-directory of a directory it reads whose path does not resolve to
    OUT_DIR (line 80). *)
Inductive Visited (root : string) : string -> Prop :=
| visited_root : Visited root root
| visited_sub (d name : string) :
    Visited root d ->
    path_resolve host (path_join host [d; name])
    <> path_resolve host (OUT_DIR opts) ->
    Visited root (path_join host [d; name]).

(** [await findBestEncode(filePath, meta.width)] (line 167) *)
Definition search (filePath : string) (metaWidth : option Z) : IO Encoded :=
  let m := findBestEncode cfg (sharp_webp host filePath) metaWidth in
  (outcome m, searchActions filePath (trace m)).

(** Lines 161-163. *)
Definition outPathOf (filePath ext : string) : string :=
  let base := path_basename host filePath ext in
  if REPLACE opts
  then path_join host [path_dirname host filePath; (base ++ ".webp")%string]
  else path_join host
         [OUT_DIR opts;
          path_relative host (SRC_DIR opts) (path_dirname host filePath);
          (base ++ ".webp")%string].

(** Lines 144-184; [None] is the [null] of lines 146 and 157. *)
Definition processOne (filePath : string) : IO (option Summary) :=
  let ext := toLowerCase host (path_extname host filePath) in
  if negb (VALID_EXT ext) then ioRet None
  else
    let rel := path_relative host (cwd host) filePath in
    srcStat <~ ioCatch (sz <~ ioCall (Stat filePath) (fs_stat host filePath) ;;
                        ioRet (Some sz))
                       (fun _ => ioRet None) ;;
    let srcSize := match srcStat with Some sz => sz | None => 0 end in
    meta <~ ioCatch (m <~ ioCall (Metadata filePath)
                            (sharp_metadata host filePath) ;;
                     ioRet (Some m))
                    (fun msg => ioCall (Warn rel msg) (Fulfilled tt) ;;~
                                ioRet None) ;;
    match meta with
    | None => ioRet None
    | Some metaWidth =>
        let out := outPathOf filePath ext in
        ioCall (Mkdir (path_dirname host out))
               (fs_mkdir host (path_dirname host out)) ;;~
        best <~ search filePath metaWidth ;;
        ioCall (WriteFile out (buf best)) (fs_writeFile host out (buf best)) ;;~
        (if REPLACE opts && DELETE_ORIG opts
         then ioCatch (ioCall (Unlink filePath) (fs_unlink host filePath))
                      (fun _ => ioRet tt)
         else ioRet tt) ;;~
        ioCall (LogResult (verdictOf cfg best) rel
                          (path_relative host (cwd host) out)
                          srcSize (bytes best) (width best) (quality best))
               (Fulfilled tt) ;;~
        ioRet (Some {| outPath := out; sum_bytes := bytes best;
                       sum_width := width best;
                       sum_quality := quality best |})
    end.

(** Lines 189-198: the body of the [for await], over the paths that walk
    yields, from a count of [count]. *)
Fixpoint mainLoop (paths : list string) (count : Z) : IO Z :=
  match paths with
  | [] => ioRet count
  | p :: rest =>
      if VALID_EXT (toLowerCase host (path_extname host p)) then
        count' <~ ioCatch (processOne p ;;~ ioRet (count + 1))
                          (fun msg => ioCall (LogError p msg) (Fulfilled tt) ;;~
                                      ioRet count) ;;
        mainLoop rest count'
      else mainLoop rest count
  end.

(** What the loop does for one yielded path: the actions of processOne
    and, when it rejects, the error line of line 195. *)
Definition perFile (p : string) : list Action :=
  if VALID_EXT (toLowerCase host (path_extname host p)) then
    snd (processOne p) ++
    match fst (processOne p) with
    | Rejected msg => [LogError p msg]
    | Fulfilled _ => []
    end
  else [].

(** The path reaches the [count++] of line 193. *)
Definition counted (p : string) : bool :=
  VALID_EXT (toLowerCase host (path_extname host p)) &&
  match fst (processOne p) with
  | Fulfilled _ => true
  | Rejected _ => false
  end.

(** Lines 186-200, given what [readdir(SRC_DIR)] gives: the images yielded
    before a failing [readdir] are processed, then its error is thrown. *)
Definition main (listing : Settled (list Dirent)) : IO Z :=
  ioCall LogStart (Fulfilled tt) ;;~
  let '(paths, failure) := walk (SRC_DIR opts) listing in
  count <~ mainLoop paths 0 ;;
  match failure with
  | Some err => (Rejected err, [])
  | None => ioCall (LogDone count) (Fulfilled tt) ;;~ ioRet count
  end.

(** Lines 202-205. *)
Definition script (listing : Settled (list Dirent)) : IO unit :=
  ioCatch (main listing ;;~ ioRet tt)
          (fun msg => ioCall (LogFatal msg) (Fulfilled tt) ;;~
                      ioCall (Exit 1) (Fulfilled tt)).

End Driver.

(** ** Sample command line, host and directory *)

Local Open Scope string_scope.

Definition sampleArgv : list string :=
  ["--target"; "200"; "--maxWidth"; "800"; "--replace"; "false"]%string.

(** The record a search returns under [tinyConfig] when nothing fits:
    [linearEncoder 1 60] gives 1733 bytes at width 1600, quality 65. *)
Definition overOutcome : Encoded :=
  {| buf := repeat Byte.x00 1733; width := 1600; quality := 65;
     bytes := 1733; bestEffort := Some true |}.

(** A host for a directory [/src] that holds the image [a.png], 2000
    pixels wide and encoded by [linearEncoder 1 125]; [meta] and [made] are
    the answers of its metadata and of mkdir. *)
Definition sampleHostWith (meta : Settled (option Z)) (made : Settled unit)
  : Host :=
  {| path_resolve := fun p => p;
     path_join := fun segments =>
       String.concat "/"
         (filter (fun x => negb (String.eqb x "")) segments);
     path_extname := fun p =>
       if String.eqb p "/src/a.png" then ".png"
       else if String.eqb p "/src/sub/b.jpg" then ".jpg" else "";
     path_basename := fun p ext =>
       if String.eqb p "/src/a.png" then "a"
       else if String.eqb p "/src/sub/b.jpg" then "b" else p;
     path_dirname := fun p =>
       if String.eqb p "/src/a.png" then "/src"
       else if String.eqb p "/src/a.webp" then "/src"
       else if String.eqb p "/src/opt/a.webp" then "/src/opt"
       else if String.eqb p "/src/sub/b.jpg" then "/src/sub"
       else if String.eqb p "/src/sub/b.webp" then "/src/sub"
       else if String.eqb p "/src/opt/sub/b.webp" then "/src/opt/sub"
       else "/";
     path_relative := fun from to =>
       if String.eqb from "/src" && String.eqb to "/src/sub" then "sub"
       else if String.eqb from "/src" && String.eqb to "/src" then ""
       else to;
     toLowerCase := fun x => x;
     cwd := "/";
     fs_stat := fun _ => Fulfilled 5000;
     fs_mkdir := fun _ => made;
     fs_writeFile := fun _ _ => Fulfilled tt;
     fs_unlink := fun _ => Fulfilled tt;
     sharp_metadata := fun _ => meta;
     sharp_webp := fun _ => linearEncoder 1 125 |}.

Definition sampleHost : Host :=
  sampleHostWith (Fulfilled (Some 2000)) (Fulfilled tt).

(** The same host when the output directory cannot be made. *)
Definition noMkdirHost : Host :=
  sampleHostWith (Fulfilled (Some 2000)) (Rejected "EACCES").

(** The same host when sharp cannot read the image. *)
Definition unreadableHost : Host :=
  sampleHostWith (Rejected "unsupported image format") (Fulfilled tt).

(** [--replace --delete-originals] on [/src]. *)
Definition replaceOpts : Options :=
  {| SRC_DIR := "/src"; OUT_DIR := "/src"; REPLACE := true;
     DELETE_ORIG := true |}.

(** The defaults on [/src]: output below it, in [/src/opt]. *)
Definition batchOpts : Options :=
  {| SRC_DIR := "/src"; OUT_DIR := "/src/opt"; REPLACE := false;
     DELETE_ORIG := false |}.

(** What [/src] holds: the image, the output directory (not readable), a
    link, and a sub-directory with a second image. *)
Definition sampleEntries : list Dirent :=
  [FileEnt "a.png"; DirEnt "opt" (Rejected "EACCES"); OtherEnt "link";
   DirEnt "sub" (Fulfilled [FileEnt "b.jpg"])].

Local Close Scope string_scope.

(** ** Rounding to a double *)

Lemma pow2_pos (k : Z) : 0 < 2 ^ Z.max 0 k.
Proof. apply Z.pow_pos_nonneg; lia. Qed.

(** [2 ^ k] as a quotient of two powers with natural exponents. *)
Lemma pow2_split (j k : Z) :
  2 ^ Z.max 0 (j + k) * 2 ^ Z.max 0 (- j) * 2 ^ Z.max 0 (- k)
  = 2 ^ Z.max 0 (- (j + k)) * 2 ^ Z.max 0 j * 2 ^ Z.max 0 k.
Proof.
  rewrite <- !Z.pow_add_r by lia. f_equal. lia.
Qed.

Lemma log2_ratio_below (n d : Z) :
  0 < n -> 0 < d ->
  d * 2 ^ Z.max 0 (Js.log2_ratio n d)
  <= n * 2 ^ Z.max 0 (- Js.log2_ratio n d).
Proof.
  intros Hn Hd. unfold Js.log2_ratio.
  set (k := Z.log2 n - Z.log2 d).
  destruct (Z.ltb_spec (n * 2 ^ Z.max 0 (- k)) (d * 2 ^ Z.max 0 k)) as [Hlt | Hge];
    [ | exact Hge ].
  destruct (Z.log2_spec n Hn) as [Hn1 _].
  destruct (Z.log2_spec d Hd) as [_ Hd2].
  pose proof (Z.log2_nonneg n) as Hp. pose proof (Z.log2_nonneg d) as Hq.
  destruct (Z_le_dec 1 k) as [Hk | Hk].
  - replace (Z.max 0 (k - 1)) with (k - 1) by lia.
    replace (Z.max 0 (- (k - 1))) with 0 by lia.
    rewrite Z.pow_0_r, Z.mul_1_r.
    assert (E : 2 ^ Z.log2 n = 2 ^ Z.succ (Z.log2 d) * 2 ^ (k - 1)).
    { rewrite <- Z.pow_add_r by lia. f_equal. unfold k. lia. }
    assert (0 < 2 ^ (k - 1)) by (apply Z.pow_pos_nonneg; lia).
    nia.
  - replace (Z.max 0 (k - 1)) with 0 by lia.
    replace (Z.max 0 (- (k - 1))) with (1 - k) by lia.
    rewrite Z.pow_0_r, Z.mul_1_r.
    assert (E : 2 ^ Z.succ (Z.log2 d) = 2 ^ Z.log2 n * 2 ^ (1 - k)).
    { rewrite <- Z.pow_add_r by lia. f_equal. unfold k. lia. }
    assert (0 < 2 ^ (1 - k)) by (apply Z.pow_pos_nonneg; lia).
    nia.
Qed.

Lemma log2_ratio_above (n d : Z) :
  0 < n -> 0 < d ->
  n * 2 ^ Z.max 0 (- (Js.log2_ratio n d + 1))
  < d * 2 ^ Z.max 0 (Js.log2_ratio n d + 1).
Proof.
  intros Hn Hd. unfold Js.log2_ratio.
  set (k := Z.log2 n - Z.log2 d).
  destruct (Z.ltb_spec (n * 2 ^ Z.max 0 (- k)) (d * 2 ^ Z.max 0 k)) as [Hlt | Hge].
  { now replace (k - 1 + 1) with k by lia. }
  destruct (Z.log2_spec n Hn) as [_ Hn2].
  destruct (Z.log2_spec d Hd) as [Hd1 _].
  pose proof (Z.log2_nonneg n) as Hp. pose proof (Z.log2_nonneg d) as Hq.
  destruct (Z_le_dec 0 k) as [Hk | Hk].
  - replace (Z.max 0 (k + 1)) with (k + 1) by lia.
    replace (Z.max 0 (- (k + 1))) with 0 by lia.
    rewrite Z.pow_0_r, Z.mul_1_r.
    assert (E : 2 ^ Z.succ (Z.log2 n) = 2 ^ Z.log2 d * 2 ^ (k + 1)).
    { rewrite <- Z.pow_add_r by lia. f_equal. unfold k. lia. }
    assert (0 < 2 ^ (k + 1)) by (apply Z.pow_pos_nonneg; lia).
    nia.
  - replace (Z.max 0 (k + 1)) with 0 by lia.
    replace (Z.max 0 (- (k + 1))) with (- (k + 1)) by lia.
    rewrite Z.pow_0_r, Z.mul_1_r.
    assert (E : 2 ^ Z.log2 d = 2 ^ Z.succ (Z.log2 n) * 2 ^ (- (k + 1))).
    { rewrite <- Z.pow_add_r by lia. f_equal. unfold k. lia. }
    assert (0 < 2 ^ (- (k + 1))) by (apply Z.pow_pos_nonneg; lia).
    nia.
Qed.

Lemma round_even_near (n d : Z) :
  0 < d ->
  2 * n - d <= 2 * (Js.round_even n d * d) <= 2 * n + d.
Proof.
  intros Hd. unfold Js.round_even.
  pose proof (Z.div_mod n d ltac:(lia)) as E.
  pose proof (Z.mod_pos_bound n d Hd) as Hr.
  destruct (Z.ltb_spec (2 * (n mod d)) d);
    [ | destruct (Z.ltb_spec d (2 * (n mod d)));
        [ | destruct (Z.even (n / d)) ] ]; nia.
Qed.

(** [double_pos n d] is [m * 2 ^ e] for the exponent [e] that puts
    [n / d / 2 ^ e] in [[2 ^ 52, 2 ^ 53)] and a mantissa [m] within one half
    of it: a 53-bit mantissa, rounded to nearest. *)
Lemma double_pos_nearest (n d : Z) :
  0 < n -> 0 < d ->
  exists e m N D : Z,
    Js.double_pos n d = Qmake (m * 2 ^ Z.max 0 e) (Z.to_pos (2 ^ Z.max 0 (- e))) /\
    N = n * 2 ^ Z.max 0 (- e) /\ D = d * 2 ^ Z.max 0 e /\ 0 < D /\
    2 ^ 52 * D <= N < 2 ^ 53 * D /\
    2 ^ 52 <= m <= 2 ^ 53 /\
    2 * N - D <= 2 * (m * D) <= 2 * N + D.
Proof.
  intros Hn Hd.
  set (k := Js.log2_ratio n d).
  exists (k - 52), (Js.round_even (n * 2 ^ Z.max 0 (- (k - 52)))
                      (d * 2 ^ Z.max 0 (k - 52))),
    (n * 2 ^ Z.max 0 (- (k - 52))), (d * 2 ^ Z.max 0 (k - 52)).
  set (a := 2 ^ Z.max 0 (- (k - 52))).
  set (b := 2 ^ Z.max 0 (k - 52)).
  assert (Ha : 0 < a) by apply pow2_pos.
  assert (Hb : 0 < b) by apply pow2_pos.
  pose proof (round_even_near (n * a) (d * b) ltac:(nia)) as Hm.
  set (m := Js.round_even (n * a) (d * b)) in *.
  assert (Hlow : 2 ^ 52 * (d * b) <= n * a).
  { pose proof (log2_ratio_below n d Hn Hd) as Hk. fold k in Hk.
    pose proof (pow2_split (k - 52) 52) as E.
    replace (k - 52 + 52) with k in E by lia.
    replace (Z.max 0 52) with 52 in E by lia.
    replace (Z.max 0 (- 52)) with 0 in E by lia.
    rewrite Z.pow_0_r, Z.mul_1_r in E. fold a b in E.
    pose proof (pow2_pos k) as Hk1. pose proof (pow2_pos (- k)) as Hk2.
    set (u := 2 ^ Z.max 0 k) in *. set (v := 2 ^ Z.max 0 (- k)) in *.
    assert (H1 : (2 ^ 52 * (d * b)) * v <= (n * a) * v).
    { replace (2 ^ 52 * (d * b) * v) with (d * (v * b * 2 ^ 52)) by ring.
      rewrite <- E.
      replace (d * (u * a)) with (d * u * a) by ring.
      replace (n * a * v) with (n * v * a) by ring.
      apply Z.mul_le_mono_nonneg_r; lia. }
    apply Z.mul_le_mono_pos_r in H1; lia. }
  assert (Hhigh : n * a < 2 ^ 53 * (d * b)).
  { pose proof (log2_ratio_above n d Hn Hd) as Hk. fold k in Hk.
    pose proof (pow2_split (k - 52) 53) as E.
    replace (k - 52 + 53) with (k + 1) in E by lia.
    replace (Z.max 0 53) with 53 in E by lia.
    replace (Z.max 0 (- 53)) with 0 in E by lia.
    rewrite Z.pow_0_r, Z.mul_1_r in E. fold a b in E.
    pose proof (pow2_pos (k + 1)) as Hk1. pose proof (pow2_pos (- (k + 1))) as Hk2.
    set (u := 2 ^ Z.max 0 (k + 1)) in *. set (v := 2 ^ Z.max 0 (- (k + 1))) in *.
    assert (H1 : (n * a) * v < (2 ^ 53 * (d * b)) * v).
    { replace (2 ^ 53 * (d * b) * v) with (d * (v * b * 2 ^ 53)) by ring.
      rewrite <- E.
      replace (d * (u * a)) with (d * u * a) by ring.
      replace (n * a * v) with (n * v * a) by ring.
      apply Z.mul_lt_mono_pos_r; lia. }
    apply Z.mul_lt_mono_pos_r in H1; lia. }
  assert (Hc : 2 ^ 53 = 2 * 2 ^ 52) by reflexivity.
  assert (Hc0 : 0 < 2 ^ 52) by reflexivity.
  set (c := 2 ^ 52) in *. rewrite Hc in *. clearbody c.
  repeat split; try lia; nia.
Qed.

(** Hence the double is positive and exceeds [n / d] by at most one part
    in 2^52. *)
Lemma double_pos_spec (n d : Z) :
  0 < n -> 0 < d ->
  exists X A : Z,
    Js.double_pos n d = Qmake X (Z.to_pos A) /\ 0 < X /\ 0 < A /\
    X * d * 2 ^ 52 <= n * A * (2 ^ 52 + 1).
Proof.
  intros Hn Hd.
  destruct (double_pos_nearest n d Hn Hd)
    as (e & m & N & D & -> & HN & HD & HD0 & [Hlow _] & [Hm _] & [_ Hup]).
  exists (m * 2 ^ Z.max 0 e), (2 ^ Z.max 0 (- e)).
  pose proof (pow2_pos e) as Hb. pose proof (pow2_pos (- e)) as Ha.
  assert (Hc0 : 0 < 2 ^ 52) by reflexivity.
  set (c := 2 ^ 52) in *. clearbody c.
  split; [reflexivity | ]. split; [nia | ]. split; [exact Ha | ].
  replace (m * 2 ^ Z.max 0 e * d * c) with (m * D * c) by (rewrite HD; ring).
  rewrite <- HN. nia.
Qed.

(** Two roundings of a factor of at most 0.99 stay below 1. *)
Lemma two_roundings_below (X2 A2 A1 X1 sn sd w : Z) :
  0 < A1 -> 0 < A2 -> 0 < sd -> 0 < w -> 0 < X1 ->
  X2 * A1 * 2 ^ 52 <= w * X1 * A2 * (2 ^ 52 + 1) ->
  X1 * sd * 2 ^ 52 <= sn * A1 * (2 ^ 52 + 1) ->
  100 * sn <= 99 * sd ->
  X2 < w * A2.
Proof.
  intros HA1 HA2 Hsd Hw HX1 H2 H1 Hs.
  assert (Hc : 99 * ((2 ^ 52 + 1) * (2 ^ 52 + 1)) < 100 * (2 ^ 52 * 2 ^ 52))
    by reflexivity.
  assert (Hc0 : 0 < 2 ^ 52) by reflexivity.
  set (c := 2 ^ 52) in *.
  set (T := w * A2) in *.
  assert (HT : 0 < T) by (unfold T; nia).
  (* chain the two bounds, cancelling A1 *)
  assert (S1 : (X2 * (c * c) * sd) * A1 <= (T * ((c + 1) * (c + 1)) * sn) * A1).
  { replace (X2 * (c * c) * sd * A1) with ((X2 * A1 * c) * (c * sd)) by ring.
    apply Z.le_trans with ((w * X1 * A2 * (c + 1)) * (c * sd)).
    - apply Z.mul_le_mono_nonneg_r; [nia | exact H2].
    - replace (w * X1 * A2 * (c + 1) * (c * sd))
        with ((X1 * sd * c) * (T * (c + 1))) by (unfold T; ring).
      replace (T * ((c + 1) * (c + 1)) * sn * A1)
        with ((sn * A1 * (c + 1)) * (T * (c + 1))) by ring.
      apply Z.mul_le_mono_nonneg_r; [nia | exact H1]. }
  apply Z.mul_le_mono_pos_r in S1; [ | exact HA1 ].
  (* bring in the bound on the factor, cancelling sd *)
  assert (S2 : (100 * (X2 * (c * c))) * sd <= (99 * (T * ((c + 1) * (c + 1)))) * sd).
  { apply Z.le_trans with (100 * (T * ((c + 1) * (c + 1)) * sn)); [lia | ].
    replace (100 * (T * ((c + 1) * (c + 1)) * sn))
      with ((100 * sn) * (T * ((c + 1) * (c + 1)))) by ring.
    replace (99 * (T * ((c + 1) * (c + 1))) * sd)
      with ((99 * sd) * (T * ((c + 1) * (c + 1)))) by ring.
    apply Z.mul_le_mono_nonneg_r; [nia | exact Hs]. }
  apply Z.mul_le_mono_pos_r in S2; [ | exact Hsd ].
  assert (S3 : X2 * (100 * (c * c)) < T * (100 * (c * c))).
  { apply Z.le_lt_trans with (T * (99 * ((c + 1) * (c + 1)))); [lia | ].
    apply Z.mul_lt_mono_pos_l; assumption. }
  apply Z.mul_lt_mono_pos_r in S3; [exact S3 | nia].
Qed.

(** Line 122 shrinks: for a step of at most 0.99, flooring the rounded
    product of a positive width gives a smaller width. *)
Lemma floor_mul_lt (w : Z) (s : Q) :
  0 < w -> (1 # 2 <= s <= 99 # 100)%Q -> Js.floor_mul w s < w.
Proof.
  intros Hw [Hs0 Hs]. destruct s as [sn sd].
  unfold Qle in Hs0, Hs. cbn [Qnum Qden] in Hs0, Hs.
  assert (Hsn : 0 < sn) by lia.
  unfold Js.floor_mul, Js.double at 2. cbn [Qnum Qden].
  destruct (Z.ltb_spec 0 sn) as [_ | ]; [ | lia ].
  destruct (double_pos_spec sn (Zpos sd) Hsn ltac:(lia))
    as (X1 & A1 & -> & HX1 & HA1 & H1).
  unfold Js.double. cbn [Qmult inject_Z Qnum Qden].
  replace (Z.pos (1 * Z.to_pos A1)) with A1
    by (rewrite Pos.mul_1_l, Z2Pos.id; lia).
  destruct (Z.ltb_spec 0 (w * X1)) as [_ | ]; [ | nia ].
  destruct (double_pos_spec (w * X1) A1 ltac:(nia) HA1)
    as (X2 & A2 & -> & HX2 & HA2 & H2).
  unfold Qfloor. rewrite Z2Pos.id by lia.
  apply Z.div_lt_upper_bound; [exact HA2 | ].
  rewrite Z.mul_comm.
  apply (two_roundings_below X2 A2 A1 X1 sn (Zpos sd) w); try lia.
Qed.

(** Line 122 on operands where the rounding shows: 0.57 is the double just
    below 57/100, so that the products fall short of 912 and of 57, as they
    do in JavaScript; the exact products floor to 912 and 57. *)
Example floor_mul_rounds_as_doubles :
  Js.floor_mul 1600 (57 # 100) = 911 /\
  Js.floor_mul 100 (57 # 100) = 56 /\
  Qfloor (inject_Z 1600 * (57 # 100)) = 912 /\
  Js.floor_mul 1600 (9 # 10) = 1440 /\
  Js.floor_mul 1166 (9 # 10) = 1049 /\
  Js.floor_mul 3 (99 # 100) = 2.
Proof. vm_compute. repeat split. Qed.

(** ** Properties of the search *)

Section SearchProperties.

Variable cfg : Config.
Variable encoder : Z -> Z -> Settled Buffer.

Local Abbreviation encodeWebPBuffer := (encodeWebPBuffer encoder).
Local Abbreviation startWidth := (startWidth cfg).
Local Abbreviation nextWidth := (nextWidth cfg).
Local Abbreviation qualityLoop := (qualityLoop cfg encoder).
Local Abbreviation qualitySearch := (qualitySearch cfg encoder).
Local Abbreviation descentLoop := (descentLoop cfg encoder).
Local Abbreviation bestEffortEncode := (bestEffortEncode cfg encoder).
Local Abbreviation findBestEncode := (findBestEncode cfg encoder).
Local Abbreviation fits := (fits cfg encoder).
Local Abbreviation exceeds := (exceeds cfg encoder).
Local Abbreviation answersOn := (answersOn encoder).
Local Abbreviation monotoneOn := (monotoneOn encoder).
Local Abbreviation answered := (answered encoder).
Local Abbreviation Propagates := (Propagates encoder).


(** One iteration of the inner loop, spelled out on the log. *)
Lemma qualityLoop_step (w lo hi : Z) (best : option Encoded) (l : Log) :
  run (qualityLoop w lo hi best) l =
  if lo <=? hi then
    let mid := Js.round_half (lo + hi) in
    match encoder w mid with
    | Fulfilled b =>
        if buf_length b <=? TARGET_BYTES cfg
        then run (qualityLoop w (mid + 1) hi (Some (candidate w mid b)))
               (l ++ [Encode w mid])
        else run (qualityLoop w lo (mid - 1) best) (l ++ [Encode w mid])
    | Rejected e => (Rejected e, l ++ [Encode w mid])
    end
  else (Fulfilled best, l).
Proof.
  simp qualityLoop.
  destruct (Z_le_dec lo hi) as [Hle | Hgt]; cbn.
  - apply Z.leb_le in Hle. rewrite Hle. cbn.
    destruct (encoder w (Js.round_half (lo + hi))) as [b | e]; [ | reflexivity].
    destruct (buf_length b <=? TARGET_BYTES cfg); reflexivity.
  - apply Z.leb_nle in Hgt. rewrite Hgt. reflexivity.
Qed.

Lemma round_half_bounds (lo hi : Z) :
  lo <= hi -> lo <= Js.round_half (lo + hi) <= hi.
Proof.
  intros H. clear cfg encoder.
  unfold Js.round_half. Z.div_mod_to_equations. lia.
Qed.

(** Both halves left by a probe hold at most half of the range. *)
Lemma round_half_halves (lo hi : Z) :
  lo <= hi ->
  2 * (hi - Js.round_half (lo + hi)) <= hi + 1 - lo /\
  2 * (Js.round_half (lo + hi) - lo) <= hi + 1 - lo.
Proof.
  intros H. clear cfg encoder.
  unfold Js.round_half. Z.div_mod_to_equations. lia.
Qed.

(** Induction on the width of the quality range, the measure of the loop. *)
Lemma range_ind (P : Z -> Z -> Prop) :
  (forall lo hi,
      (forall lo' hi', hi' + 1 - lo' < hi + 1 - lo -> lo <= hi ->
                       P lo' hi') -> P lo hi) ->
  forall lo hi, P lo hi.
Proof.
  intros step lo hi.
  remember (Z.to_nat (hi + 1 - lo)) as n eqn:En.
  revert lo hi En. induction n as [n IH] using lt_wf_ind.
  intros lo hi En. apply step. intros lo' hi' Hlt Hnn.
  apply (IH (Z.to_nat (hi' + 1 - lo'))); [lia | reflexivity].
Qed.

(** *** The log is write-only *)

Lemma oblivious_bind {A B} (m : M A) (k : A -> M B) :
  Oblivious m -> (forall a, Oblivious (k a)) -> Oblivious (bind m k).
Proof.
  intros Hm Hk l. pose proof (Hm l) as Hl.
  unfold outcome, trace in *. cbn [run bind].
  destruct (run m []) as [[a | e] t]; cbn [fst snd] in Hl; rewrite Hl;
    [ | reflexivity].
  pose proof (Hk a t) as Ht. pose proof (Hk a (l ++ t)) as Hlt.
  unfold outcome, trace in *.
  destruct (run (k a) []) as [r u]. cbn [fst snd] in *.
  rewrite Ht, Hlt. cbn. now rewrite app_assoc.
Qed.

Lemma oblivious_ret {A} (a : A) : Oblivious (ret a).
Proof. intros l. cbn. now rewrite app_nil_r. Qed.

Lemma oblivious_emit (e : Event) : Oblivious (emit e).
Proof. intros l. reflexivity. Qed.

Lemma oblivious_encode (w q : Z) : Oblivious (encodeWebPBuffer w q).
Proof. intros l. reflexivity. Qed.

Lemma oblivious_qualityLoop (w : Z) :
  forall lo hi best, Oblivious (qualityLoop w lo hi best).
Proof.
  intros lo hi. pattern lo, hi. apply range_ind. clear lo hi.
  intros lo hi IH best l. unfold outcome, trace.
  rewrite !qualityLoop_step.
  destruct (lo <=? hi) eqn:Hle; [ | cbn; now rewrite app_nil_r].
  apply Z.leb_le in Hle.
  pose proof (round_half_bounds lo hi Hle) as Hmid. cbn zeta.
  destruct (encoder w (Js.round_half (lo + hi))) as [b | e]; [ | reflexivity].
  destruct (buf_length b <=? TARGET_BYTES cfg).
  - rewrite (IH (Js.round_half (lo + hi) + 1) hi ltac:(lia) Hle _ (l ++ _)).
    rewrite (IH (Js.round_half (lo + hi) + 1) hi ltac:(lia) Hle _ ([] ++ _)).
    cbn. now rewrite <- app_assoc.
  - rewrite (IH lo (Js.round_half (lo + hi) - 1) ltac:(lia) Hle _ (l ++ _)).
    rewrite (IH lo (Js.round_half (lo + hi) - 1) ltac:(lia) Hle _ ([] ++ _)).
    cbn. now rewrite <- app_assoc.
Qed.

(** *** Quality Search finds the highest quality that fits *)

Lemma qualityLoop_spec (w : Z) :
  forall lo hi,
    answersOn w lo hi -> monotoneOn w lo hi ->
    forall best,
    exists r,
      outcome (qualityLoop w lo hi best) = Fulfilled r /\
      ((r = best /\ forall q, lo <= q <= hi -> ~ fits w q) \/
       (exists q b,
           lo <= q <= hi /\ encoder w q = Fulfilled b /\
           buf_length b <= TARGET_BYTES cfg /\
           r = Some (candidate w q b) /\
           forall q', q < q' <= hi -> ~ fits w q')).
Proof.
  intros lo hi. pattern lo, hi. apply range_ind. clear lo hi.
  intros lo hi IH Hans Hmono best. unfold outcome.
  rewrite qualityLoop_step.
  destruct (lo <=? hi) eqn:Hle.
  2:{ apply Z.leb_nle in Hle. exists best. split; [reflexivity | ].
      left. split; [reflexivity | ]. intros q Hq. lia. }
  apply Z.leb_le in Hle.
  pose proof (round_half_bounds lo hi Hle) as Hmid. cbn zeta.
  set (mid := Js.round_half (lo + hi)) in *.
  destruct (Hans mid Hmid) as [b Hb]. rewrite Hb.
  destruct (buf_length b <=? TARGET_BYTES cfg) eqn:Hfit.
  - apply Z.leb_le in Hfit.
    rewrite (oblivious_qualityLoop w _ _ _ _). cbn [fst].
    destruct (IH (mid + 1) hi ltac:(lia) Hle) with (best := Some (candidate w mid b))
      as [r [Hr Hcase]].
    + intros q Hq. apply Hans. lia.
    + intros q q' c c' H1 H2 H3. apply Hmono; lia.
    + exists r. split; [exact Hr | ]. right.
      destruct Hcase as [[-> Hnone] | [q [c [Hq [Hc [Hlen [-> Habove]]]]]]].
      * exists mid, b. repeat split; try lia; try assumption.
        intros q' Hq'. apply Hnone. lia.
      * exists q, c. repeat split; try lia; assumption.
  - apply Z.leb_gt in Hfit.
    rewrite (oblivious_qualityLoop w _ _ _ _). cbn [fst].
    assert (Hupper : forall q, mid <= q <= hi -> ~ fits w q).
    { intros q Hq [c [Hc Hlen]].
      pose proof (Hmono mid q b c ltac:(lia) ltac:(lia) ltac:(lia) Hb Hc). lia. }
    destruct (IH lo (mid - 1) ltac:(lia) Hle) with (best := best)
      as [r [Hr Hcase]].
    + intros q Hq. apply Hans. lia.
    + intros q q' c c' H1 H2 H3. apply Hmono; lia.
    + exists r. split; [exact Hr | ].
      destruct Hcase as [[-> Hnone] | [q [c [Hq [Hc [Hlen [-> Habove]]]]]]].
      * left. split; [reflexivity | ]. intros q Hq.
        destruct (Z_lt_le_dec q mid); [apply Hnone | apply Hupper]; lia.
      * right. exists q, c. repeat split; try lia; try assumption.
        intros q' Hq'.
        destruct (Z_lt_le_dec q' mid); [apply Habove | apply Hupper]; lia.
Qed.

(** The inner loop, by outcome and by trace. *)
Lemma qualityLoop_outcome (w lo hi : Z) (best : option Encoded) :
  outcome (qualityLoop w lo hi best) =
  if lo <=? hi then
    let mid := Js.round_half (lo + hi) in
    match encoder w mid with
    | Fulfilled b =>
        if buf_length b <=? TARGET_BYTES cfg
        then outcome (qualityLoop w (mid + 1) hi (Some (candidate w mid b)))
        else outcome (qualityLoop w lo (mid - 1) best)
    | Rejected e => Rejected e
    end
  else Fulfilled best.
Proof.
  unfold outcome at 1. rewrite qualityLoop_step.
  destruct (lo <=? hi); [ | reflexivity]. cbn zeta.
  destruct (encoder w (Js.round_half (lo + hi))) as [b | e]; [ | reflexivity].
  destruct (buf_length b <=? TARGET_BYTES cfg);
    now rewrite oblivious_qualityLoop.
Qed.

Lemma qualityLoop_trace (w lo hi : Z) (best : option Encoded) :
  trace (qualityLoop w lo hi best) =
  if lo <=? hi then
    let mid := Js.round_half (lo + hi) in
    Encode w mid ::
    match encoder w mid with
    | Fulfilled b =>
        if buf_length b <=? TARGET_BYTES cfg
        then trace (qualityLoop w (mid + 1) hi (Some (candidate w mid b)))
        else trace (qualityLoop w lo (mid - 1) best)
    | Rejected e => []
    end
  else [].
Proof.
  unfold trace at 1. rewrite qualityLoop_step.
  destruct (lo <=? hi); [ | reflexivity]. cbn zeta.
  destruct (encoder w (Js.round_half (lo + hi))) as [b | e]; [ | reflexivity].
  destruct (buf_length b <=? TARGET_BYTES cfg);
    now rewrite oblivious_qualityLoop.
Qed.

Lemma oblivious_qualitySearch (w : Z) : Oblivious (qualitySearch w).
Proof. apply oblivious_qualityLoop. Qed.

(** *** The outer loop *)

(** Induction on the attempts left. *)
Lemma attempt_ind (P : Z -> Prop) :
  (forall a, (a <= MAX_DOWNSCALES cfg -> P (a + 1)) -> P a) ->
  forall a, P a.
Proof.
  intros step a.
  remember (Z.to_nat (MAX_DOWNSCALES cfg + 1 - a)) as n eqn:En.
  revert a En. induction n as [ | n IH]; intros a En; apply step; intros Hle.
  - lia.
  - apply IH. lia.
Qed.

(** One iteration of the outer loop. *)
Lemma descentLoop_body (w a : Z) :
  descentLoop w a =
  if a <=? MAX_DOWNSCALES cfg then
    emit (Round a w) ;;;
    bestLocal <- qualitySearch w ;;
    match bestLocal with
    | Some r => ret (Some r)
    | None =>
        if nextWidth w =? w then ret None
        else descentLoop (nextWidth w) (a + 1)
    end
  else ret None.
Proof.
  remember (descentLoop (nextWidth w) (a + 1)) as next eqn:Enext.
  simp descentLoop. subst next.
  destruct (Z_le_dec a (MAX_DOWNSCALES cfg)) as [Hle | Hgt]; cbn.
  - apply Z.leb_le in Hle. now rewrite Hle.
  - apply Z.leb_nle in Hgt. now rewrite Hgt.
Qed.

Lemma oblivious_descentLoop : forall a w, Oblivious (descentLoop w a).
Proof.
  intros a. pattern a. apply attempt_ind. clear a.
  intros a IH w. rewrite descentLoop_body.
  destruct (a <=? MAX_DOWNSCALES cfg) eqn:Hle; [ | apply oblivious_ret].
  apply Z.leb_le in Hle.
  apply oblivious_bind; [apply oblivious_emit | intros _].
  apply oblivious_bind; [apply oblivious_qualitySearch | intros [r | ]].
  - apply oblivious_ret.
  - destruct (nextWidth w =? w); [apply oblivious_ret | now apply IH].
Qed.

Lemma oblivious_bestEffortEncode (mw : option Z) :
  Oblivious (bestEffortEncode mw).
Proof.
  apply oblivious_bind; [apply oblivious_encode | intros b].
  apply oblivious_ret.
Qed.

Lemma oblivious_findBestEncode (mw : option Z) : Oblivious (findBestEncode mw).
Proof.
  apply oblivious_bind; [apply oblivious_descentLoop | intros [r | ]].
  - apply oblivious_ret.
  - apply oblivious_bestEffortEncode.
Qed.

(** Outcome and trace of a sequence of two oblivious computations. *)
Lemma outcome_bind {A B} (m : M A) (k : A -> M B) :
  (forall a, Oblivious (k a)) ->
  outcome (bind m k) =
  match outcome m with
  | Fulfilled a => outcome (k a)
  | Rejected e => Rejected e
  end.
Proof.
  intros Hk. unfold outcome. cbn [run bind].
  destruct (run m []) as [[a | e] t]; cbn [fst]; [ | reflexivity].
  now rewrite (Hk a t).
Qed.

Lemma trace_bind {A B} (m : M A) (k : A -> M B) :
  (forall a, Oblivious (k a)) ->
  trace (bind m k) =
  trace m ++ match outcome m with
             | Fulfilled a => trace (k a)
             | Rejected e => []
             end.
Proof.
  intros Hk. unfold trace, outcome. cbn [run bind].
  destruct (run m []) as [[a | e] t]; cbn [fst snd];
    [ | now rewrite app_nil_r].
  now rewrite (Hk a t).
Qed.

Lemma descentLoop_outcome (w a : Z) :
  outcome (descentLoop w a) =
  if a <=? MAX_DOWNSCALES cfg then
    match outcome (qualitySearch w) with
    | Fulfilled (Some r) => Fulfilled (Some r)
    | Fulfilled None =>
        if nextWidth w =? w then Fulfilled None
        else outcome (descentLoop (nextWidth w) (a + 1))
    | Rejected e => Rejected e
    end
  else Fulfilled None.
Proof.
  rewrite descentLoop_body at 1.
  destruct (a <=? MAX_DOWNSCALES cfg); [ | reflexivity].
  rewrite outcome_bind; cbn [outcome emit run fst].
  - rewrite outcome_bind.
    + destruct (outcome (qualitySearch w)) as [[r | ] | e]; try reflexivity.
      destruct (nextWidth w =? w); reflexivity.
    + intros [r | ]; [apply oblivious_ret | ].
      destruct (nextWidth w =? w);
        [apply oblivious_ret | apply oblivious_descentLoop].
  - intros _. apply oblivious_bind; [apply oblivious_qualitySearch | ].
    intros [r | ]; [apply oblivious_ret | ].
    destruct (nextWidth w =? w);
      [apply oblivious_ret | apply oblivious_descentLoop].
Qed.

Lemma descentLoop_trace (w a : Z) :
  trace (descentLoop w a) =
  if a <=? MAX_DOWNSCALES cfg then
    Round a w :: trace (qualitySearch w) ++
    match outcome (qualitySearch w) with
    | Fulfilled None =>
        if nextWidth w =? w then []
        else trace (descentLoop (nextWidth w) (a + 1))
    | _ => []
    end
  else [].
Proof.
  rewrite descentLoop_body at 1.
  destruct (a <=? MAX_DOWNSCALES cfg); [ | reflexivity].
  rewrite trace_bind; cbn [outcome trace emit run fst snd app].
  - f_equal. fold (outcome (qualitySearch w)).
    change (snd (run ?m [])) with (trace m).
    rewrite trace_bind.
    + f_equal.
      destruct (outcome (qualitySearch w)) as [[r | ] | e]; try reflexivity.
      destruct (nextWidth w =? w); reflexivity.
    + intros [r | ]; [apply oblivious_ret | ].
      destruct (nextWidth w =? w);
        [apply oblivious_ret | apply oblivious_descentLoop].
  - intros _. apply oblivious_bind; [apply oblivious_qualitySearch | ].
    intros [r | ]; [apply oblivious_ret | ].
    destruct (nextWidth w =? w);
      [apply oblivious_ret | apply oblivious_descentLoop].
Qed.

Lemma findBestEncode_outcome (mw : option Z) :
  outcome (findBestEncode mw) =
  match outcome (descentLoop (startWidth mw) 0) with
  | Fulfilled (Some r) => Fulfilled r
  | Fulfilled None =>
      match encoder (startWidth mw) (MIN_Q cfg) with
      | Fulfilled b =>
          Fulfilled {| buf := b; width := startWidth mw; quality := MIN_Q cfg;
                       bytes := buf_length b; bestEffort := Some true |}
      | Rejected e => Rejected e
      end
  | Rejected e => Rejected e
  end.
Proof.
  unfold findBestEncode. rewrite outcome_bind.
  - destruct (outcome (descentLoop (startWidth mw) 0)) as [[r | ] | e];
      try reflexivity.
    unfold outcome. cbn.
    destruct (encoder (startWidth mw) (MIN_Q cfg)); reflexivity.
  - intros [r | ]; [apply oblivious_ret | apply oblivious_bestEffortEncode].
Qed.

Lemma findBestEncode_trace (mw : option Z) :
  trace (findBestEncode mw) =
  trace (descentLoop (startWidth mw) 0) ++
  match outcome (descentLoop (startWidth mw) 0) with
  | Fulfilled None => [Encode (startWidth mw) (MIN_Q cfg)]
  | _ => []
  end.
Proof.
  unfold findBestEncode. rewrite trace_bind.
  - f_equal.
    destruct (outcome (descentLoop (startWidth mw) 0)) as [[r | ] | e];
      try reflexivity.
    unfold trace. cbn.
    destruct (encoder (startWidth mw) (MIN_Q cfg)); reflexivity.
  - intros [r | ]; [apply oblivious_ret | apply oblivious_bestEffortEncode].
Qed.

(** *** What the loops return *)

(** A candidate returned by the inner loop is the one it started with or
    the record of a probe that fits. *)
Lemma qualityLoop_some (w : Z) :
  forall lo hi best e,
    outcome (qualityLoop w lo hi best) = Fulfilled (Some e) ->
    best = Some e \/
    exists q b,
      lo <= q <= hi /\ encoder w q = Fulfilled b /\
      buf_length b <= TARGET_BYTES cfg /\ e = candidate w q b.
Proof.
  intros lo hi. pattern lo, hi. apply range_ind. clear lo hi.
  intros lo hi IH best e. rewrite qualityLoop_outcome.
  destruct (lo <=? hi) eqn:Hle; [ | intros [= ->]; now left].
  apply Z.leb_le in Hle.
  pose proof (round_half_bounds lo hi Hle) as Hmid. cbn zeta.
  set (mid := Js.round_half (lo + hi)) in *.
  destruct (encoder w mid) as [b | err] eqn:Hb; [ | discriminate].
  destruct (buf_length b <=? TARGET_BYTES cfg) eqn:Hfit; intros Hout.
  - apply Z.leb_le in Hfit. right.
    apply IH in Hout; [ | lia | exact Hle].
    destruct Hout as [[= <-] | [q [c [Hq [Hc [Hlen ->]]]]]].
    + exists mid, b. repeat split; try lia; assumption.
    + exists q, c. repeat split; try lia; assumption.
  - apply IH in Hout; [ | lia | exact Hle].
    destruct Hout as [-> | [q [c [Hq [Hc [Hlen ->]]]]]]; [now left | right].
    exists q, c. repeat split; try lia; assumption.
Qed.

(** Once a candidate is held the inner loop never drops it for nothing. *)
Lemma qualityLoop_keeps (w : Z) :
  forall lo hi e, outcome (qualityLoop w lo hi (Some e)) <> Fulfilled None.
Proof.
  intros lo hi. pattern lo, hi. apply range_ind. clear lo hi.
  intros lo hi IH e. rewrite qualityLoop_outcome.
  destruct (lo <=? hi) eqn:Hle; [ | discriminate].
  apply Z.leb_le in Hle.
  pose proof (round_half_bounds lo hi Hle) as Hmid. cbn zeta.
  destruct (encoder w (Js.round_half (lo + hi))) as [b | err];
    [ | discriminate].
  destruct (buf_length b <=? TARGET_BYTES cfg); apply IH; lia || exact Hle.
Qed.

(** A search that comes back empty-handed has probed the lowest quality of
    its range, and that encode was over the budget. *)
Lemma qualityLoop_none (w : Z) :
  forall lo hi,
    lo <= hi ->
    outcome (qualityLoop w lo hi None) = Fulfilled None ->
    exists b, encoder w lo = Fulfilled b /\ TARGET_BYTES cfg < buf_length b.
Proof.
  intros lo hi. pattern lo, hi. apply range_ind. clear lo hi.
  intros lo hi IH Hle. rewrite qualityLoop_outcome.
  pose proof (round_half_bounds lo hi Hle) as Hmid.
  apply Z.leb_le in Hle as Hleb. rewrite Hleb. cbn zeta.
  set (mid := Js.round_half (lo + hi)) in *.
  destruct (encoder w mid) as [b | err] eqn:Hb; [ | discriminate].
  destruct (buf_length b <=? TARGET_BYTES cfg) eqn:Hfit; intros Hout.
  - now apply qualityLoop_keeps in Hout.
  - apply Z.leb_gt in Hfit.
    destruct (Z.eq_dec mid lo) as [Heq | Hne].
    + exists b. rewrite <- Heq. split; assumption.
    + apply (IH lo (mid - 1)); [lia | exact Hle | lia | exact Hout].
Qed.

Lemma exceeds_not_fits (w q : Z) : exceeds w q -> ~ fits w q.
Proof.
  intros [b [Hb Hlen]] [c [Hc Hfit]]. rewrite Hb in Hc.
  injection Hc as <-. lia.
Qed.

Lemma not_fits_exceeds (w q : Z) :
  (exists b, encoder w q = Fulfilled b) -> ~ fits w q -> exceeds w q.
Proof.
  intros [b Hb] Hno. exists b. split; [exact Hb | ].
  destruct (Z_lt_le_dec (TARGET_BYTES cfg) (buf_length b)) as [Hlt | Hle];
    [exact Hlt | ].
  exfalso. apply Hno. now exists b.
Qed.

(** C1: for a fixed width, when the encoder answers every quality of
    [MIN_Q, MAX_Q] and its byte length never decreases as quality grows, the
    quality search returns the record of the highest quality of the range
    whose encode is within TARGET_BYTES (with that encode's buffer, the
    width and the byte length), and returns no candidate exactly when the
    encode at MIN_Q is over TARGET_BYTES. *)
Theorem qualitySearch_highest_fit (w : Z) :
  MIN_Q cfg <= MAX_Q cfg ->
  answersOn w (MIN_Q cfg) (MAX_Q cfg) ->
  monotoneOn w (MIN_Q cfg) (MAX_Q cfg) ->
  exists r,
    outcome (qualitySearch w) = Fulfilled r /\
    (r = None <-> exceeds w (MIN_Q cfg)) /\
    (forall e, r = Some e ->
       exists q b,
         MIN_Q cfg <= q <= MAX_Q cfg /\
         encoder w q = Fulfilled b /\
         buf_length b <= TARGET_BYTES cfg /\
         (forall q', q < q' <= MAX_Q cfg -> exceeds w q') /\
         e = {| buf := b; width := w; quality := q; bytes := buf_length b;
                bestEffort := None |}).
Proof.
  intros Hrange Hans Hmono.
  destruct (qualityLoop_spec w _ _ Hans Hmono None) as [r [Hr Hcase]].
  exists r. split; [exact Hr | ].
  destruct Hcase as [[-> Hnone] | [q [b [Hq [Hb [Hlen [-> Habove]]]]]]].
  - split.
    + split; [intros _ | reflexivity].
      apply not_fits_exceeds; [apply Hans | apply Hnone]; lia.
    + intros e [=].
  - split.
    + split; [discriminate | ]. intros Hover. exfalso.
      apply exceeds_not_fits in Hover. apply Hover.
      destruct (Hans (MIN_Q cfg) ltac:(lia)) as [c Hc].
      exists c. split; [exact Hc | ].
      pose proof (Hmono (MIN_Q cfg) q c b ltac:(lia) ltac:(lia) ltac:(lia)
                    Hc Hb). lia.
    + intros e [= <-]. exists q, b. repeat split; try lia; try assumption.
      intros q' Hq'.
      apply not_fits_exceeds; [apply Hans | apply Habove]; lia.
Qed.

(** A candidate returned by the descent is the record of a probe that fits,
    and it has no [bestEffort] property. *)
Lemma descentLoop_some :
  forall a w e,
    outcome (descentLoop w a) = Fulfilled (Some e) ->
    exists w' q b,
      MIN_Q cfg <= q <= MAX_Q cfg /\ encoder w' q = Fulfilled b /\
      buf_length b <= TARGET_BYTES cfg /\ e = candidate w' q b.
Proof.
  intros a. pattern a. apply attempt_ind. clear a.
  intros a IH w e. rewrite descentLoop_outcome.
  destruct (a <=? MAX_DOWNSCALES cfg) eqn:Hle; [ | discriminate].
  apply Z.leb_le in Hle.
  destruct (outcome (qualitySearch w)) as [[r | ] | err] eqn:Hq;
    [ | | discriminate].
  - intros [= ->]. apply qualityLoop_some in Hq.
    destruct Hq as [[=] | [q [b H]]]. now exists w, q, b.
  - destruct (nextWidth w =? w); [discriminate | now apply IH].
Qed.

(** C2: whenever findBestEncode returns an outcome (no encode rejected) and
    that outcome is not flagged bestEffort, its byte length is at most
    TARGET_BYTES. *)
Theorem unflagged_outcome_within_target (metaWidth : option Z) (e : Encoded) :
  outcome (findBestEncode metaWidth) = Fulfilled e ->
  truthy (bestEffort e) = false ->
  bytes e <= TARGET_BYTES cfg.
Proof.
  rewrite findBestEncode_outcome.
  destruct (outcome (descentLoop (startWidth metaWidth) 0))
    as [[r | ] | err] eqn:Hd; [ | | discriminate].
  - intros [= ->] _. apply descentLoop_some in Hd.
    destruct Hd as [w' [q [b [_ [_ [Hlen ->]]]]]]. exact Hlen.
  - destruct (encoder (startWidth metaWidth) (MIN_Q cfg)); [ | discriminate].
    intros [= <-]. discriminate.
Qed.

(** C3: when the descent loop ends without a candidate, findBestEncode
    returns the encode at MIN_Q and the starting width, which is
    min(naturalWidth, MAX_WIDTH) for a natural width that is present and
    not zero, flagged bestEffort = true, whatever its byte length. *)
Theorem empty_descent_returns_bestEffort (metaWidth : option Z) :
  MIN_Q cfg <= MAX_Q cfg ->
  0 <= MAX_DOWNSCALES cfg ->
  outcome (descentLoop (startWidth metaWidth) 0) = Fulfilled None ->
  exists b,
    encoder (startWidth metaWidth) (MIN_Q cfg) = Fulfilled b /\
    outcome (findBestEncode metaWidth) =
      Fulfilled {| buf := b; width := startWidth metaWidth;
                   quality := MIN_Q cfg; bytes := buf_length b;
                   bestEffort := Some true |} /\
    (forall n, metaWidth = Some n -> n <> 0 ->
               startWidth metaWidth = Z.min n (MAX_WIDTH cfg)).
Proof.
  intros Hq Hd Hnone.
  assert (Hprobe : exists b, encoder (startWidth metaWidth) (MIN_Q cfg)
                             = Fulfilled b).
  { rewrite descentLoop_outcome in Hnone.
    apply Z.leb_le in Hd. rewrite Hd in Hnone.
    destruct (outcome (qualitySearch (startWidth metaWidth)))
      as [[r | ] | err] eqn:Hs; [discriminate | | discriminate].
    apply qualityLoop_none in Hs; [ | exact Hq].
    destruct Hs as [b [Hb _]]. now exists b. }
  destruct Hprobe as [b Hb]. exists b. split; [exact Hb | ]. split.
  - rewrite findBestEncode_outcome, Hnone, Hb. reflexivity.
  - intros n -> Hn. unfold startWidth, Js.or_else.
    apply Z.eqb_neq in Hn. now rewrite Hn.
Qed.

(** With an encoder that answers every probe both loops return. *)
Lemma qualityLoop_fulfils (w : Z) :
  (forall q, exists b, encoder w q = Fulfilled b) ->
  forall lo hi best, exists r, outcome (qualityLoop w lo hi best) = Fulfilled r.
Proof.
  intros Hans lo hi. pattern lo, hi. apply range_ind. clear lo hi.
  intros lo hi IH best. rewrite qualityLoop_outcome.
  destruct (lo <=? hi) eqn:Hle; [ | now exists best].
  apply Z.leb_le in Hle.
  pose proof (round_half_bounds lo hi Hle) as Hmid. cbn zeta.
  destruct (Hans (Js.round_half (lo + hi))) as [b ->].
  destruct (buf_length b <=? TARGET_BYTES cfg); apply IH; lia || exact Hle.
Qed.

Lemma descentLoop_fulfils :
  (forall w q, exists b, encoder w q = Fulfilled b) ->
  forall a w, exists r, outcome (descentLoop w a) = Fulfilled r.
Proof.
  intros Hans a. pattern a. apply attempt_ind. clear a.
  intros a IH w. rewrite descentLoop_outcome.
  destruct (a <=? MAX_DOWNSCALES cfg) eqn:Hle; [ | now exists None].
  apply Z.leb_le in Hle.
  destruct (qualityLoop_fulfils w (Hans w) (MIN_Q cfg) (MAX_Q cfg) None)
    as [r Hr].
  unfold qualitySearch. rewrite Hr. destruct r as [r | ].
  - now exists (Some r).
  - destruct (nextWidth w =? w); [now exists None | now apply IH].
Qed.

(** C8 (as the code has it): an outcome returned by findBestEncode either
    comes from the descent, and then it has no bestEffort property at all
    (falsy where it is tested) and its byte length is within TARGET_BYTES,
    or is the fallback encode made after a descent without candidate, and
    then its bestEffort property is true. *)
Theorem bestEffort_absent_or_true (metaWidth : option Z) (e : Encoded) :
  outcome (findBestEncode metaWidth) = Fulfilled e ->
  (outcome (descentLoop (startWidth metaWidth) 0) = Fulfilled (Some e) /\
   bestEffort e = None /\ bytes e <= TARGET_BYTES cfg) \/
  (outcome (descentLoop (startWidth metaWidth) 0) = Fulfilled None /\
   bestEffort e = Some true).
Proof.
  rewrite findBestEncode_outcome.
  destruct (outcome (descentLoop (startWidth metaWidth) 0))
    as [[r | ] | err] eqn:Hd; [ | | discriminate].
  - intros [= ->]. left. split; [reflexivity | ].
    apply descentLoop_some in Hd.
    destruct Hd as [w' [q [b [_ [_ [Hlen ->]]]]]]. now split.
  - destruct (encoder (startWidth metaWidth) (MIN_Q cfg)); [ | discriminate].
    intros [= <-]. right. now split.
Qed.

(** *** Probes and rounds are bounded *)

Lemma probeBound_half (m n : Z) :
  1 <= n -> 2 * m <= n -> probeBound m + 1 <= probeBound n.
Proof.
  intros Hn Hm. unfold probeBound.
  destruct (n <=? 0) eqn:En; [apply Z.leb_le in En; lia | ].
  destruct (m <=? 0) eqn:Em.
  - pose proof (Z.log2_nonneg n). lia.
  - apply Z.leb_gt in Em.
    pose proof (Z.log2_double m Em) as Hdbl.
    pose proof (Z.log2_le_mono (2 * m) n Hm). lia.
Qed.

Lemma qualityLoop_probe_count (w : Z) :
  forall lo hi best,
    Z.of_nat (length (trace (qualityLoop w lo hi best)))
    <= probeBound (hi + 1 - lo).
Proof.
  intros lo hi. pattern lo, hi. apply range_ind. clear lo hi.
  intros lo hi IH best. rewrite qualityLoop_trace.
  destruct (lo <=? hi) eqn:Hle.
  2:{ apply Z.leb_gt in Hle. unfold probeBound.
      destruct (hi + 1 - lo <=? 0) eqn:E; [cbn; lia | ].
      apply Z.leb_gt in E. lia. }
  apply Z.leb_le in Hle.
  pose proof (round_half_bounds lo hi Hle) as Hmid.
  pose proof (round_half_halves lo hi Hle) as [Hup Hdown]. cbn zeta.
  set (mid := Js.round_half (lo + hi)) in *.
  cbn [length]. rewrite Nat2Z.inj_succ.
  destruct (encoder w mid) as [b | err].
  - destruct (buf_length b <=? TARGET_BYTES cfg).
    + specialize (IH (mid + 1) hi ltac:(lia) Hle (Some (candidate w mid b))).
      pose proof (probeBound_half (hi + 1 - (mid + 1)) (hi + 1 - lo)
                    ltac:(lia) ltac:(lia)). lia.
    + specialize (IH lo (mid - 1) ltac:(lia) Hle best).
      pose proof (probeBound_half (mid - 1 + 1 - lo) (hi + 1 - lo)
                    ltac:(lia) ltac:(lia)). lia.
  - pose proof (probeBound_half 0 (hi + 1 - lo) ltac:(lia) ltac:(lia)) as H.
    cbn in *. lia.
Qed.

(** The inner loop only calls the encoder, at its width and inside its
    range. *)
Lemma qualityLoop_trace_encodes (w : Z) :
  forall lo hi best,
    Forall (fun ev => exists q, ev = Encode w q /\ lo <= q <= hi)
           (trace (qualityLoop w lo hi best)).
Proof.
  intros lo hi. pattern lo, hi. apply range_ind. clear lo hi.
  intros lo hi IH best. rewrite qualityLoop_trace.
  destruct (lo <=? hi) eqn:Hle; [ | constructor].
  apply Z.leb_le in Hle.
  pose proof (round_half_bounds lo hi Hle) as Hmid. cbn zeta.
  set (mid := Js.round_half (lo + hi)) in *.
  constructor; [now exists mid | ].
  destruct (encoder w mid) as [b | err]; [ | constructor].
  destruct (buf_length b <=? TARGET_BYTES cfg).
  - eapply Forall_impl; [ | apply (IH (mid + 1) hi); lia || exact Hle].
    cbn. intros ev [q [-> Hq]]. exists q. split; [reflexivity | lia].
  - eapply Forall_impl; [ | apply (IH lo (mid - 1)); lia || exact Hle].
    cbn. intros ev [q [-> Hq]]. exists q. split; [reflexivity | lia].
Qed.

Lemma roundWidths_app (l1 l2 : Log) :
  roundWidths (l1 ++ l2) = roundWidths l1 ++ roundWidths l2.
Proof.
  induction l1 as [ | [a w | w q] l1 IH]; cbn; [reflexivity | | exact IH].
  now rewrite IH.
Qed.

Lemma roundAttempts_app (l1 l2 : Log) :
  roundAttempts (l1 ++ l2) = roundAttempts l1 ++ roundAttempts l2.
Proof.
  induction l1 as [ | [a w | w q] l1 IH]; cbn; [reflexivity | | exact IH].
  now rewrite IH.
Qed.

Lemma roundAttempts_length (l : Log) :
  length (roundAttempts l) = length (roundWidths l).
Proof.
  induction l as [ | [a w | w q] l IH]; cbn; [reflexivity | | exact IH].
  now rewrite IH.
Qed.

Lemma probes_app (l1 l2 : Log) : probes (l1 ++ l2) = probes l1 ++ probes l2.
Proof. apply filter_app. Qed.

Lemma encodes_only (P : Event -> Prop) (l : Log) :
  Forall (fun ev => exists q, P ev /\ exists w, ev = Encode w q) l ->
  roundWidths l = [] /\ roundAttempts l = [] /\ probes l = l.
Proof.
  induction 1 as [ | ev l [q [_ [w ->]]] _ [IH1 [IH2 IH3]]]; cbn.
  - repeat split.
  - repeat split; try assumption. unfold probes in IH3. now rewrite IH3.
Qed.

Lemma qualitySearch_no_round (w : Z) :
  roundWidths (trace (qualitySearch w)) = [] /\
  roundAttempts (trace (qualitySearch w)) = [] /\
  probes (trace (qualitySearch w)) = trace (qualitySearch w).
Proof.
  apply (encodes_only (fun _ => True)).
  eapply Forall_impl;
    [ | apply (qualityLoop_trace_encodes w (MIN_Q cfg) (MAX_Q cfg) None)].
  cbn. intros ev [q [-> _]]. exists q. split; [exact I | now exists w].
Qed.

(** The rounds of the descent carry the attempts [a, a+1, ...], none past
    MAX_DOWNSCALES. *)
Lemma descentLoop_attempts :
  forall a w,
    roundAttempts (trace (descentLoop w a)) =
    map (fun i => a + Z.of_nat i)
        (seq 0 (length (roundWidths (trace (descentLoop w a))))) /\
    Z.of_nat (length (roundWidths (trace (descentLoop w a))))
    <= Z.max 0 (MAX_DOWNSCALES cfg + 1 - a).
Proof.
  intros a. pattern a. apply attempt_ind. clear a.
  intros a IH w. rewrite descentLoop_trace.
  destruct (a <=? MAX_DOWNSCALES cfg) eqn:Hle; [ | cbn; split; [easy | lia]].
  apply Z.leb_le in Hle.
  destruct (qualitySearch_no_round w) as [Hw [Ha _]].
  cbn [roundAttempts roundWidths].
  rewrite roundAttempts_app, roundWidths_app, Hw, Ha. cbn [app length seq map].
  rewrite Z.add_0_r.
  assert (Hstop : forall l : Log, l = [] ->
            a :: roundAttempts l =
            a :: map (fun i => a + Z.of_nat i)
                     (seq 1 (length (roundWidths l))) /\
            Z.of_nat (S (length (roundWidths l)))
            <= Z.max 0 (MAX_DOWNSCALES cfg + 1 - a)).
  { intros l ->. cbn. split; [reflexivity | lia]. }
  destruct (outcome (qualitySearch w)) as [[r | ] | err];
    try (now apply Hstop).
  destruct (nextWidth w =? w); [now apply Hstop | ].
  destruct (IH Hle (nextWidth w)) as [IHa IHn]. split.
  - rewrite IHa, <- seq_shift, map_map. f_equal.
    apply map_ext. intros i. lia.
  - lia.
Qed.

Lemma qualitySearch_probe_count (w : Z) :
  MIN_Q cfg <= MAX_Q cfg ->
  Z.of_nat (length (trace (qualitySearch w)))
  <= Z.log2 (MAX_Q cfg - MIN_Q cfg + 1) + 1.
Proof.
  intros Hq.
  pose proof (qualityLoop_probe_count w (MIN_Q cfg) (MAX_Q cfg) None) as H.
  unfold probeBound in H.
  destruct (MAX_Q cfg + 1 - MIN_Q cfg <=? 0) eqn:E;
    [apply Z.leb_le in E; lia | ].
  replace (MAX_Q cfg - MIN_Q cfg + 1) with (MAX_Q cfg + 1 - MIN_Q cfg) by lia.
  exact H.
Qed.

Lemma descentLoop_probe_count :
  MIN_Q cfg <= MAX_Q cfg ->
  forall a w,
    Z.of_nat (length (probes (trace (descentLoop w a))))
    <= Z.max 0 (MAX_DOWNSCALES cfg + 1 - a)
       * (Z.log2 (MAX_Q cfg - MIN_Q cfg + 1) + 1).
Proof.
  intros Hq a. pattern a. apply attempt_ind. clear a.
  intros a IH w. rewrite descentLoop_trace.
  pose proof (Z.log2_nonneg (MAX_Q cfg - MIN_Q cfg + 1)) as Hlog.
  destruct (a <=? MAX_DOWNSCALES cfg) eqn:Hle; [ | cbn; nia].
  apply Z.leb_le in Hle.
  destruct (qualitySearch_no_round w) as [_ [_ Hp]].
  pose proof (qualitySearch_probe_count w Hq) as Hcount.
  cbn [probes filter isEncode]. fold (probes (trace (qualitySearch w) ++
    match outcome (qualitySearch w) with
    | Fulfilled None =>
        if nextWidth w =? w then []
        else trace (descentLoop (nextWidth w) (a + 1))
    | _ => []
    end)).
  rewrite probes_app, Hp, length_app, Nat2Z.inj_add.
  assert (Hstop : Z.of_nat (length (trace (qualitySearch w)))
                  + Z.of_nat (length (probes []))
                  <= Z.max 0 (MAX_DOWNSCALES cfg + 1 - a)
                     * (Z.log2 (MAX_Q cfg - MIN_Q cfg + 1) + 1)).
  { cbn. nia. }
  destruct (outcome (qualitySearch w)) as [[r | ] | err]; try exact Hstop.
  destruct (nextWidth w =? w); [exact Hstop | ].
  specialize (IH Hle (nextWidth w)). nia.
Qed.

(** C6: findBestEncode terminates.  Under the clamps of the configuration,
    a quality search makes at most log2(MAX_Q - MIN_Q + 1) + 1 encoder calls
    at any width, exactly one when MIN_Q = MAX_Q; the outer loop runs at
    most MAX_DOWNSCALES + 1 rounds, whose attempt counters are 0, 1, 2, ...;
    the whole run makes at most one encoder call more than that many
    searches; and with an encoder that answers every call the run returns
    an outcome. *)
Theorem findBestEncode_terminates (metaWidth : option Z) :
  MIN_Q cfg <= MAX_Q cfg ->
  0 <= MAX_DOWNSCALES cfg ->
  (forall w,
      Z.of_nat (length (trace (qualitySearch w)))
      <= Z.log2 (MAX_Q cfg - MIN_Q cfg + 1) + 1) /\
  (MIN_Q cfg = MAX_Q cfg ->
   forall w, trace (qualitySearch w) = [Encode w (MIN_Q cfg)]) /\
  Z.of_nat (length (roundWidths (trace (findBestEncode metaWidth))))
  <= MAX_DOWNSCALES cfg + 1 /\
  roundAttempts (trace (findBestEncode metaWidth)) =
  map Z.of_nat
      (seq 0 (length (roundWidths (trace (findBestEncode metaWidth))))) /\
  Z.of_nat (length (probes (trace (findBestEncode metaWidth))))
  <= (MAX_DOWNSCALES cfg + 1) * (Z.log2 (MAX_Q cfg - MIN_Q cfg + 1) + 1) + 1 /\
  ((forall w q, exists b, encoder w q = Fulfilled b) ->
   exists e, outcome (findBestEncode metaWidth) = Fulfilled e).
Proof.
  intros Hq Hd.
  pose proof (descentLoop_attempts 0 (startWidth metaWidth)) as [Hatt Hrounds].
  pose proof (descentLoop_probe_count Hq 0 (startWidth metaWidth)) as Hprobes.
  assert (Hfallback :
    forall l : Log, l = [] \/ l = [Encode (startWidth metaWidth) (MIN_Q cfg)] ->
      roundWidths l = [] /\ roundAttempts l = [] /\
      (length (probes l) <= 1)%nat).
  { intros l [-> | ->]; cbn; repeat split; lia. }
  rewrite findBestEncode_trace, roundWidths_app, roundAttempts_app, probes_app.
  set (tail := match outcome (descentLoop (startWidth metaWidth) 0) with
               | Fulfilled None => [Encode (startWidth metaWidth) (MIN_Q cfg)]
               | _ => []
               end) in *.
  destruct (Hfallback tail) as [Hw [Ha Hp]].
  { subst tail.
    destruct (outcome (descentLoop (startWidth metaWidth) 0)) as [[r | ] | err];
      auto. }
  rewrite Hw, Ha, !app_nil_r, length_app.
  repeat split.
  - intros w. now apply qualitySearch_probe_count.
  - intros Heq w. unfold qualitySearch. rewrite <- Heq.
    rewrite qualityLoop_trace, Z.leb_refl. cbn zeta.
    replace (Js.round_half (MIN_Q cfg + MIN_Q cfg)) with (MIN_Q cfg)
      by (unfold Js.round_half; Z.div_mod_to_equations; lia).
    f_equal.
    destruct (encoder w (MIN_Q cfg)) as [b | err]; [ | reflexivity].
    destruct (buf_length b <=? TARGET_BYTES cfg);
      rewrite qualityLoop_trace;
      match goal with
      | |- (if ?c then _ else _) = _ =>
          replace c with false by (symmetry; apply Z.leb_gt; lia)
      end; reflexivity.
  - lia.
  - rewrite Hatt. apply map_ext. intros i. lia.
  - lia.
  - intros Hans. rewrite findBestEncode_outcome.
    destruct (descentLoop_fulfils Hans 0 (startWidth metaWidth)) as [r ->].
    destruct r as [r | ]; [now exists r | ].
    destruct (Hans (startWidth metaWidth) (MIN_Q cfg)) as [b ->].
    now eexists.
Qed.

(** *** Encoder failures propagate *)

Lemma propagates_ret {A} (a : A) : Propagates (ret a).
Proof. constructor. Qed.

Lemma propagates_emit (a w : Z) : Propagates (emit (Round a w)).
Proof. repeat constructor. Qed.

Lemma propagates_encode (w q : Z) : Propagates (encodeWebPBuffer w q).
Proof.
  unfold Propagates, outcome, trace. cbn.
  destruct (encoder w q) as [b | err] eqn:Hb.
  - repeat constructor. now exists b.
  - exists [], w, q. repeat split; [constructor | exact Hb].
Qed.

Lemma propagates_bind {A B} (m : M A) (k : A -> M B) :
  Propagates m -> (forall a, Oblivious (k a)) -> (forall a, Propagates (k a)) ->
  Propagates (bind m k).
Proof.
  unfold Propagates. intros Hm Ho Hk.
  rewrite (outcome_bind m k Ho), (trace_bind m k Ho).
  destruct (outcome m) as [a | err].
  - specialize (Hk a). destruct (outcome (k a)) as [c | err].
    + apply Forall_app. now split.
    + destruct Hk as [pre [w [q [-> [Hpre Hrej]]]]].
      exists (trace m ++ pre), w, q. rewrite app_assoc.
      repeat split; [apply Forall_app; now split | exact Hrej].
  - now rewrite app_nil_r.
Qed.

Lemma qualityLoop_body (w lo hi : Z) (best : option Encoded) :
  qualityLoop w lo hi best =
  if lo <=? hi then
    b <- encodeWebPBuffer w (Js.round_half (lo + hi)) ;;
    if buf_length b <=? TARGET_BYTES cfg
    then qualityLoop w (Js.round_half (lo + hi) + 1) hi
           (Some (candidate w (Js.round_half (lo + hi)) b))
    else qualityLoop w lo (Js.round_half (lo + hi) - 1) best
  else ret best.
Proof.
  set (up := fun b => qualityLoop w (Js.round_half (lo + hi) + 1) hi
                       (Some (candidate w (Js.round_half (lo + hi)) b))).
  set (down := qualityLoop w lo (Js.round_half (lo + hi) - 1) best).
  change (qualityLoop w lo hi best =
          if lo <=? hi then
            b <- encodeWebPBuffer w (Js.round_half (lo + hi)) ;;
            if buf_length b <=? TARGET_BYTES cfg then up b else down
          else ret best).
  assert (Eup : up = fun b => qualityLoop w (Js.round_half (lo + hi) + 1) hi
                       (Some (candidate w (Js.round_half (lo + hi)) b)))
    by reflexivity.
  assert (Edown : down = qualityLoop w lo (Js.round_half (lo + hi) - 1) best)
    by reflexivity.
  clearbody up down.
  simp qualityLoop. subst up down.
  destruct (Z_le_dec lo hi) as [Hle | Hgt]; cbn.
  - apply Z.leb_le in Hle. now rewrite Hle.
  - apply Z.leb_nle in Hgt. now rewrite Hgt.
Qed.

Lemma propagates_qualityLoop (w : Z) :
  forall lo hi best, Propagates (qualityLoop w lo hi best).
Proof.
  intros lo hi. pattern lo, hi. apply range_ind. clear lo hi.
  intros lo hi IH best. rewrite qualityLoop_body.
  destruct (lo <=? hi) eqn:Hle; [ | apply propagates_ret].
  apply Z.leb_le in Hle.
  pose proof (round_half_bounds lo hi Hle) as Hmid.
  apply propagates_bind; [apply propagates_encode | | ]; intros b;
    destruct (buf_length b <=? TARGET_BYTES cfg);
    try apply oblivious_qualityLoop; apply IH; lia || exact Hle.
Qed.

Lemma propagates_descentLoop : forall a w, Propagates (descentLoop w a).
Proof.
  intros a. pattern a. apply attempt_ind. clear a.
  intros a IH w. rewrite descentLoop_body.
  destruct (a <=? MAX_DOWNSCALES cfg) eqn:Hle; [ | apply propagates_ret].
  apply Z.leb_le in Hle.
  apply propagates_bind; [apply propagates_emit | | ]; intros _.
  - apply oblivious_bind; [apply oblivious_qualitySearch | intros [r | ]].
    + apply oblivious_ret.
    + destruct (nextWidth w =? w);
        [apply oblivious_ret | apply oblivious_descentLoop].
  - apply propagates_bind; [apply propagates_qualityLoop | | ]; intros [r | ].
    + apply oblivious_ret.
    + destruct (nextWidth w =? w);
        [apply oblivious_ret | apply oblivious_descentLoop].
    + apply propagates_ret.
    + destruct (nextWidth w =? w); [apply propagates_ret | now apply IH].
Qed.

Lemma propagates_findBestEncode (mw : option Z) :
  Propagates (findBestEncode mw).
Proof.
  apply propagates_bind; [apply propagates_descentLoop | | ]; intros [r | ].
  - apply oblivious_ret.
  - apply oblivious_bestEffortEncode.
  - apply propagates_ret.
  - apply propagates_bind; [apply propagates_encode | | ]; intros b.
    + apply oblivious_ret.
    + apply propagates_ret.
Qed.

(** C5: when every encoder invocation of the run succeeds, findBestEncode
    returns an outcome; a descent that found no qualifying pair shows only
    as the fallback outcome flagged bestEffort = true, never as a rejection.
    Nothing is asked of the encoder on pairs the run does not try. *)
Theorem findBestEncode_always_returns (metaWidth : option Z) :
  Forall answered (trace (findBestEncode metaWidth)) ->
  exists e,
    outcome (findBestEncode metaWidth) = Fulfilled e /\
    (outcome (descentLoop (startWidth metaWidth) 0) = Fulfilled (Some e) \/
     outcome (descentLoop (startWidth metaWidth) 0) = Fulfilled None /\
     bestEffort e = Some true).
Proof.
  intros Hans.
  pose proof (propagates_findBestEncode metaWidth) as Hp.
  unfold Propagates in Hp.
  destruct (outcome (findBestEncode metaWidth)) as [e | err] eqn:Hout.
  - exists e. split; [reflexivity | ].
    rewrite findBestEncode_outcome in Hout.
    destruct (outcome (descentLoop (startWidth metaWidth) 0))
      as [[r | ] | err]; [ | | discriminate].
    + injection Hout as ->. now left.
    + right. split; [reflexivity | ].
      destruct (encoder (startWidth metaWidth) (MIN_Q cfg));
        [ | discriminate].
      now injection Hout as <-.
  - exfalso. destruct Hp as [pre [w [q [Htrace [_ Hrej]]]]].
    rewrite Htrace in Hans. apply Forall_app in Hans as [_ Hlast].
    apply Forall_inv in Hlast. destruct Hlast as [b Hb].
    rewrite Hrej in Hb. discriminate.
Qed.

(** C7: an encoder call that fails during findBestEncode is the last thing
    the search does (no retry, no further call), every call before it was
    answered, and the search rejects with that call's error instead of
    returning an outcome. *)
Theorem encoder_failure_propagates
    (metaWidth : option Z) (w q : Z) (err : string) :
  In (Encode w q) (trace (findBestEncode metaWidth)) ->
  encoder w q = Rejected err ->
  outcome (findBestEncode metaWidth) = Rejected err /\
  exists pre,
    trace (findBestEncode metaWidth) = pre ++ [Encode w q] /\
    Forall answered pre /\
    ~ In (Encode w q) pre.
Proof.
  intros Hin Hrej.
  assert (Hbad : ~ answered (Encode w q)).
  { intros [b Hb]. rewrite Hrej in Hb. discriminate. }
  pose proof (propagates_findBestEncode metaWidth) as Hp.
  unfold Propagates in Hp.
  destruct (outcome (findBestEncode metaWidth)) as [e | err'].
  - exfalso. apply Hbad. rewrite Forall_forall in Hp. now apply Hp.
  - destruct Hp as [pre [w' [q' [Htrace [Hpre Hrej']]]]].
    rewrite Htrace in Hin. apply in_app_or in Hin.
    assert (Hnot : ~ In (Encode w q) pre).
    { intros H. apply Hbad. rewrite Forall_forall in Hpre. now apply Hpre. }
    destruct Hin as [Hin | [[= -> ->] | []]]; [contradiction | ].
    rewrite Hrej in Hrej'. injection Hrej' as ->.
    split; [reflexivity | ]. now exists pre.
Qed.

(** *** The starting width *)

Lemma startWidth_falsy (mw : option Z) :
  mw = None \/ mw = Some 0 -> startWidth mw = MAX_WIDTH cfg.
Proof. intros [-> | ->]; unfold startWidth; cbn; apply Z.min_id. Qed.

Lemma descentLoop_first_round (w : Z) :
  0 <= MAX_DOWNSCALES cfg ->
  hd_error (trace (descentLoop w 0)) = Some (Round 0 w).
Proof.
  intros Hd. rewrite descentLoop_trace.
  apply Z.leb_le in Hd. now rewrite Hd.
Qed.

(** C10: a natural width that is missing or zero is replaced by MAX_WIDTH:
    the descent starts at MAX_WIDTH, a best-effort outcome carries width
    MAX_WIDTH and comes from a final encode at (MAX_WIDTH, MIN_Q), and the
    whole run is the run for a natural width equal to MAX_WIDTH. *)
Theorem falsy_width_defaults_to_max (metaWidth : option Z) :
  metaWidth = None \/ metaWidth = Some 0 ->
  0 <= MAX_DOWNSCALES cfg ->
  startWidth metaWidth = MAX_WIDTH cfg /\
  hd_error (trace (findBestEncode metaWidth))
  = Some (Round 0 (MAX_WIDTH cfg)) /\
  (forall e,
      outcome (findBestEncode metaWidth) = Fulfilled e ->
      bestEffort e = Some true ->
      width e = MAX_WIDTH cfg /\
      last (trace (findBestEncode metaWidth)) (Round 0 0)
      = Encode (MAX_WIDTH cfg) (MIN_Q cfg)) /\
  (forall l,
      run (findBestEncode metaWidth) l
      = run (findBestEncode (Some (MAX_WIDTH cfg))) l).
Proof.
  intros Hfalsy Hd. pose proof (startWidth_falsy metaWidth Hfalsy) as Hs.
  split; [exact Hs | ]. split; [ | split].
  - rewrite findBestEncode_trace, Hs.
    pose proof (descentLoop_first_round (MAX_WIDTH cfg) Hd) as Hhd.
    destruct (trace (descentLoop (MAX_WIDTH cfg) 0)); [discriminate | exact Hhd].
  - intros e. rewrite findBestEncode_outcome, findBestEncode_trace, Hs.
    destruct (outcome (descentLoop (MAX_WIDTH cfg) 0))
      as [[r | ] | err] eqn:Hdesc; [ | | discriminate].
    + intros [= ->] Hflag. apply descentLoop_some in Hdesc.
      destruct Hdesc as [w' [q [b [_ [_ [_ ->]]]]]]. discriminate.
    + destruct (encoder (MAX_WIDTH cfg) (MIN_Q cfg)); [ | discriminate].
      intros [= <-] _. split; [reflexivity | apply last_last].
  - intros l. unfold findBestEncode, bestEffortEncode. rewrite Hs.
    replace (startWidth (Some (MAX_WIDTH cfg))) with (MAX_WIDTH cfg);
      [reflexivity | ].
    unfold startWidth, Js.or_else.
    destruct (MAX_WIDTH cfg =? 0); now rewrite Z.min_id.
Qed.

(** *** The widths of the descent, from a start at or above the floor *)

Lemma nextWidth_bounds (w : Z) :
  (1 # 2 <= SCALE_STEP cfg <= 99 # 100)%Q -> 320 <= w ->
  320 <= nextWidth w <= w /\ (nextWidth w = w <-> w = 320).
Proof.
  intros Hs Hw. unfold nextWidth, Js.or_else.
  destruct (w =? 0) eqn:E; [apply Z.eqb_eq in E; lia | ].
  pose proof (floor_mul_lt w (SCALE_STEP cfg) ltac:(lia) Hs). lia.
Qed.

Lemma StronglySorted_app_tail (pre l : list Z) :
  StronglySorted Z.gt (pre ++ l) -> StronglySorted Z.gt l.
Proof.
  induction pre as [ | x pre IH]; cbn; [easy | ].
  intros H. apply StronglySorted_inv in H as [H _]. now apply IH.
Qed.

(** From a starting width at or above the floor of 320, the widths of the
    rounds decrease strictly, stay between the floor and the start, and a
    round at the floor is the last one. *)
Lemma descent_widths_decrease :
  (1 # 2 <= SCALE_STEP cfg <= 99 # 100)%Q ->
  forall a w,
    320 <= w ->
    StronglySorted Z.gt (roundWidths (trace (descentLoop w a))) /\
    Forall (fun x => 320 <= x <= w) (roundWidths (trace (descentLoop w a))) /\
    (forall pre post,
        roundWidths (trace (descentLoop w a)) = pre ++ 320 :: post ->
        post = []).
Proof.
  intros Hs a w Hw.
  assert (Hmain :
    StronglySorted Z.gt (roundWidths (trace (descentLoop w a))) /\
    Forall (fun x => 320 <= x <= w) (roundWidths (trace (descentLoop w a)))).
  { revert w Hw. pattern a. apply attempt_ind. clear a.
    intros a IH w Hw. rewrite descentLoop_trace.
    destruct (a <=? MAX_DOWNSCALES cfg) eqn:Hle;
      [ | split; constructor].
    apply Z.leb_le in Hle.
    destruct (qualitySearch_no_round w) as [Hnone _].
    cbn [roundWidths]. rewrite roundWidths_app, Hnone. cbn [app].
    assert (Hstop : forall l : Log, l = [] ->
              StronglySorted Z.gt (w :: roundWidths l) /\
              Forall (fun x => 320 <= x <= w) (w :: roundWidths l)).
    { intros l ->. cbn. split; repeat constructor; lia. }
    destruct (outcome (qualitySearch w)) as [[r | ] | err];
      try (now apply Hstop).
    destruct (nextWidth w =? w) eqn:Hnext; [now apply Hstop | ].
    apply Z.eqb_neq in Hnext.
    destruct (nextWidth_bounds w Hs Hw) as [Hb _].
    destruct (IH Hle (nextWidth w) ltac:(lia)) as [Hsorted Hall].
    split.
    - constructor; [exact Hsorted | ].
      eapply Forall_impl; [ | exact Hall]. cbn. intros x Hx. lia.
    - constructor; [lia | ].
      eapply Forall_impl; [ | exact Hall]. cbn. intros x Hx. lia. }
  destruct Hmain as [Hsorted Hall]. repeat split; try assumption.
  intros pre post Heq. rewrite Heq in Hsorted, Hall.
  apply StronglySorted_app_tail in Hsorted.
  apply StronglySorted_inv in Hsorted as [_ Hgt].
  apply Forall_app in Hall as [_ Hall].
  apply Forall_inv_tail in Hall.
  destruct post as [ | x post]; [reflexivity | exfalso].
  apply Forall_inv in Hgt. apply Forall_inv in Hall. lia.
Qed.

(** The same for the whole run: the fallback encode opens no round. *)
Lemma findBestEncode_widths_decrease (metaWidth : option Z) :
  (1 # 2 <= SCALE_STEP cfg <= 99 # 100)%Q ->
  320 <= startWidth metaWidth ->
  StronglySorted Z.gt (roundWidths (trace (findBestEncode metaWidth))) /\
  Forall (fun x => 320 <= x <= startWidth metaWidth)
         (roundWidths (trace (findBestEncode metaWidth))).
Proof.
  intros Hs Hw. rewrite findBestEncode_trace, roundWidths_app.
  destruct (descent_widths_decrease Hs 0 (startWidth metaWidth) Hw)
    as [Hsorted [Hall _]].
  destruct (outcome (descentLoop (startWidth metaWidth) 0)) as [[r | ] | e];
    cbn [roundWidths]; rewrite app_nil_r; now split.
Qed.

End SearchProperties.

(** ** The configuration built from the command line is well formed *)

Lemma configOfArgs_ok (target maxWidth minQ maxQ downs : option Z)
    (scaleStep : option Q) :
  ConfigOk (configOfArgs target maxWidth minQ maxQ downs scaleStep).
Proof.
  constructor; cbn; try lia.
  - apply Q.min_glb; [discriminate | apply Q.le_max_l].
  - apply Q.le_min_l.
Qed.

Lemma configOk_scale_bounds (c : Config) :
  ConfigOk c -> (1 # 2 <= SCALE_STEP c <= 99 # 100)%Q.
Proof.
  intros H. split; [apply (scale_lower c H) | apply (scale_upper c H)].
Qed.

(** ** Determinism *)

Section WorldSearchProperties.

Variable World : Type.
Variable cfg : Config.
Variable encoderW : World -> Z -> Z -> Settled Buffer * World.

Lemma qualityLoopW_step (w lo hi : Z) (best : option Encoded) (s : World) :
  runW (qualityLoopW cfg encoderW w lo hi best) s =
  if lo <=? hi then
    let mid := Js.round_half (lo + hi) in
    match encoderW s w mid with
    | (Fulfilled b, s') =>
        if buf_length b <=? TARGET_BYTES cfg
        then runW (qualityLoopW cfg encoderW w (mid + 1) hi
                     (Some (candidate w mid b))) s'
        else runW (qualityLoopW cfg encoderW w lo (mid - 1) best) s'
    | (Rejected e, s') => (Rejected e, s')
    end
  else (Fulfilled best, s).
Proof.
  simp qualityLoopW.
  destruct (Z_le_dec lo hi) as [Hle | Hgt]; cbn.
  - apply Z.leb_le in Hle. rewrite Hle. cbn.
    destruct (encoderW s w (Js.round_half (lo + hi))) as [[b | e] s'];
      [ | reflexivity].
    destruct (buf_length b <=? TARGET_BYTES cfg); reflexivity.
  - apply Z.leb_nle in Hgt. rewrite Hgt. reflexivity.
Qed.

Lemma descentLoopW_step (w a : Z) (s : World) :
  runW (descentLoopW cfg encoderW w a) s =
  if a <=? MAX_DOWNSCALES cfg then
    match runW (qualityLoopW cfg encoderW w (MIN_Q cfg) (MAX_Q cfg) None) s
    with
    | (Fulfilled (Some r), s') => (Fulfilled (Some r), s')
    | (Fulfilled None, s') =>
        if nextWidth cfg w =? w then (Fulfilled None, s')
        else runW (descentLoopW cfg encoderW (nextWidth cfg w) (a + 1)) s'
    | (Rejected e, s') => (Rejected e, s')
    end
  else (Fulfilled None, s).
Proof.
  remember (descentLoopW cfg encoderW (nextWidth cfg w) (a + 1)) as next
    eqn:Enext.
  simp descentLoopW. subst next.
  destruct (Z_le_dec a (MAX_DOWNSCALES cfg)) as [Hle | Hgt]; cbn.
  - apply Z.leb_le in Hle. rewrite Hle.
    destruct (runW (qualityLoopW cfg encoderW w (MIN_Q cfg) (MAX_Q cfg) None)
                s) as [[[r | ] | e] s']; try reflexivity.
    destruct (nextWidth cfg w =? w); reflexivity.
  - apply Z.leb_nle in Hgt. now rewrite Hgt.
Qed.

Hypothesis deterministic : deterministicEncoder encoderW.

(** On a deterministic encoder the world does not show in the result: from
    any world, a loop returns what it returns on the answers alone. *)
Lemma qualityLoopW_outcome (s0 : World) (w : Z) :
  forall lo hi best s,
    fst (runW (qualityLoopW cfg encoderW w lo hi best) s)
    = outcome (qualityLoop cfg (answerIn encoderW s0) w lo hi best).
Proof.
  intros lo hi. pattern lo, hi. apply range_ind. clear lo hi.
  intros lo hi IH best s.
  rewrite qualityLoopW_step, qualityLoop_outcome.
  destruct (lo <=? hi) eqn:Hle; [ | reflexivity].
  apply Z.leb_le in Hle.
  pose proof (round_half_bounds lo hi Hle) as Hmid. cbn zeta.
  unfold answerIn at 1.
  rewrite <- (deterministic s s0 w (Js.round_half (lo + hi))).
  destruct (encoderW s w (Js.round_half (lo + hi))) as [[b | err] s'];
    cbn [fst]; [ | reflexivity].
  destruct (buf_length b <=? TARGET_BYTES cfg).
  - apply IH; [lia | exact Hle].
  - apply IH; [lia | exact Hle].
Qed.

Lemma descentLoopW_outcome (s0 : World) :
  forall a w s,
    fst (runW (descentLoopW cfg encoderW w a) s)
    = outcome (descentLoop cfg (answerIn encoderW s0) w a).
Proof.
  intros a. pattern a. apply (attempt_ind cfg). clear a.
  intros a IH w s.
  rewrite descentLoopW_step.
  rewrite (descentLoop_outcome cfg (answerIn encoderW s0) w a).
  destruct (a <=? MAX_DOWNSCALES cfg) eqn:Hle; [ | reflexivity].
  apply Z.leb_le in Hle. unfold qualitySearch.
  rewrite <- (qualityLoopW_outcome s0 w (MIN_Q cfg) (MAX_Q cfg) None s).
  destruct (runW (qualityLoopW cfg encoderW w (MIN_Q cfg) (MAX_Q cfg) None) s)
    as [[[r | ] | err] s']; cbn [fst]; try reflexivity.
  destruct (nextWidth cfg w =? w); [reflexivity | ].
  now apply IH.
Qed.

(** The search in a world returns what the search of [Section Search]
    returns on the encoder's answers. *)
Lemma findBestEncodeW_outcome (s0 : World) (metaWidth : option Z) (s : World) :
  fst (runW (findBestEncodeW cfg encoderW metaWidth) s)
  = outcome (findBestEncode cfg (answerIn encoderW s0) metaWidth).
Proof.
  rewrite findBestEncode_outcome.
  rewrite <- (descentLoopW_outcome s0 0 (startWidth cfg metaWidth) s).
  unfold findBestEncodeW. cbn.
  destruct (runW (descentLoopW cfg encoderW (startWidth cfg metaWidth) 0) s)
    as [[[r | ] | err] s']; cbn; try reflexivity.
  unfold answerIn.
  rewrite <- (deterministic s' s0 (startWidth cfg metaWidth) (MIN_Q cfg)).
  destruct (encoderW s' (startWidth cfg metaWidth) (MIN_Q cfg))
    as [[b | err] s'']; reflexivity.
Qed.

End WorldSearchProperties.


(** The hypothesis on the encoder is needed: on an encoder that gives out
    after 30 calls, a run started after 28 calls rejects where a run started
    in a fresh world returns an outcome. *)
Example exhaustible_encoder_runs_differ :
  fst (runW (findBestEncodeW tinyConfig
               (exhaustibleEncoder 30 (linearEncoder 1 125)) (Some 2000))
         0%nat)
  = Fulfilled fitOutcome /\
  fst (runW (findBestEncodeW tinyConfig
               (exhaustibleEncoder 30 (linearEncoder 1 125)) (Some 2000))
         28%nat)
  = Rejected "out of memory"%string.
Proof. split; vm_compute; reflexivity. Qed.

(** ** The properties on concrete runs *)

Example defaultConfig_values :
  defaultConfig =
  {| TARGET_BYTES := 307200; MAX_WIDTH := 1600; MIN_Q := 65; MAX_Q := 95;
     MAX_DOWNSCALES := 4; SCALE_STEP := 9 # 10 |}.
Proof. reflexivity. Qed.

Lemma linearEncoder_answers (k d w q : Z) :
  exists b, linearEncoder k d w q = Fulfilled b.
Proof. now eexists. Qed.

Lemma linearEncoder_length (k d w q : Z) (b : Buffer) :
  linearEncoder k d w q = Fulfilled b ->
  buf_length b = Z.max 0 (w * q * k / d).
Proof.
  intros [= <-]. unfold buf_length. rewrite repeat_length.
  generalize (w * q * k / d). intros z. lia.
Qed.

Lemma linearEncoder_monotone (k d w lo hi : Z) :
  0 <= k -> 0 < d -> 0 <= w -> monotoneOn (linearEncoder k d) w lo hi.
Proof.
  intros Hk Hd Hw q q' b b' _ Hq _ Hb Hb'.
  rewrite (linearEncoder_length _ _ _ _ _ Hb).
  rewrite (linearEncoder_length _ _ _ _ _ Hb').
  apply Z.max_le_compat_l, Z.div_le_mono; [exact Hd | ].
  apply Z.mul_le_mono_nonneg_r; [exact Hk | ].
  apply Z.mul_le_mono_nonneg_l; [exact Hw | exact Hq].
Qed.


(** Under a budget of 1 KB, [linearEncoder 1 125] fits at width 1600 up to
    quality 80, [linearEncoder 1 20] and [linearEncoder 1 10] fit nowhere
    above the floor. *)

Lemma qualitySearch_highest_fit_witness :
  MIN_Q tinyConfig <= MAX_Q tinyConfig /\
  answersOn (linearEncoder 1 125) 1600 (MIN_Q tinyConfig) (MAX_Q tinyConfig) /\
  monotoneOn (linearEncoder 1 125) 1600 (MIN_Q tinyConfig) (MAX_Q tinyConfig) /\
  exists r,
    outcome (qualitySearch tinyConfig (linearEncoder 1 125) 1600)
    = Fulfilled r /\
    (r = None <-> exceeds tinyConfig (linearEncoder 1 125) 1600
                    (MIN_Q tinyConfig)) /\
    (forall e, r = Some e ->
       exists q b,
         MIN_Q tinyConfig <= q <= MAX_Q tinyConfig /\
         linearEncoder 1 125 1600 q = Fulfilled b /\
         buf_length b <= TARGET_BYTES tinyConfig /\
         (forall q', q < q' <= MAX_Q tinyConfig ->
                     exceeds tinyConfig (linearEncoder 1 125) 1600 q') /\
         e = {| buf := b; width := 1600; quality := q; bytes := buf_length b;
                bestEffort := None |}).
Proof.
  assert (H1 : MIN_Q tinyConfig <= MAX_Q tinyConfig)
    by (vm_compute; discriminate).
  assert (H2 : answersOn (linearEncoder 1 125) 1600
                 (MIN_Q tinyConfig) (MAX_Q tinyConfig))
    by (intros q _; apply linearEncoder_answers).
  assert (H3 : monotoneOn (linearEncoder 1 125) 1600
                 (MIN_Q tinyConfig) (MAX_Q tinyConfig))
    by (apply linearEncoder_monotone; lia).
  repeat (split; [assumption | ]).
  exact (qualitySearch_highest_fit tinyConfig (linearEncoder 1 125) 1600
           H1 H2 H3).
Defined.

Lemma unflagged_outcome_within_target_witness :
  outcome (findBestEncode tinyConfig (linearEncoder 1 125) (Some 2000))
  = Fulfilled fitOutcome /\
  truthy (bestEffort fitOutcome) = false /\
  bytes fitOutcome <= TARGET_BYTES tinyConfig.
Proof.
  assert (H1 : outcome (findBestEncode tinyConfig (linearEncoder 1 125)
                          (Some 2000)) = Fulfilled fitOutcome)
    by (vm_compute; reflexivity).
  assert (H2 : truthy (bestEffort fitOutcome) = false) by reflexivity.
  repeat (split; [assumption | ]).
  exact (unflagged_outcome_within_target tinyConfig (linearEncoder 1 125)
           (Some 2000) fitOutcome H1 H2).
Defined.

Lemma empty_descent_returns_bestEffort_witness :
  MIN_Q tinyConfig <= MAX_Q tinyConfig /\
  0 <= MAX_DOWNSCALES tinyConfig /\
  outcome (descentLoop tinyConfig (linearEncoder 1 20)
             (startWidth tinyConfig (Some 2000)) 0) = Fulfilled None /\
  exists b,
    linearEncoder 1 20 (startWidth tinyConfig (Some 2000)) (MIN_Q tinyConfig)
    = Fulfilled b /\
    outcome (findBestEncode tinyConfig (linearEncoder 1 20) (Some 2000)) =
      Fulfilled {| buf := b; width := startWidth tinyConfig (Some 2000);
                   quality := MIN_Q tinyConfig; bytes := buf_length b;
                   bestEffort := Some true |} /\
    (forall n, Some 2000 = Some n -> n <> 0 ->
               startWidth tinyConfig (Some 2000)
               = Z.min n (MAX_WIDTH tinyConfig)).
Proof.
  assert (H1 : MIN_Q tinyConfig <= MAX_Q tinyConfig)
    by (vm_compute; discriminate).
  assert (H2 : 0 <= MAX_DOWNSCALES tinyConfig) by (vm_compute; discriminate).
  assert (H3 : outcome (descentLoop tinyConfig (linearEncoder 1 20)
                          (startWidth tinyConfig (Some 2000)) 0)
               = Fulfilled None)
    by (vm_compute; reflexivity).
  repeat (split; [assumption | ]).
  exact (empty_descent_returns_bestEffort tinyConfig (linearEncoder 1 20)
           (Some 2000) H1 H2 H3).
Defined.

Lemma findBestEncode_always_returns_witness :
  Forall (answered (failingBelow 300 (linearEncoder 1 20)))
    (trace (findBestEncode tinyConfig (failingBelow 300 (linearEncoder 1 20))
              (Some 2000))) /\
  exists e,
    outcome (findBestEncode tinyConfig (failingBelow 300 (linearEncoder 1 20))
               (Some 2000))
    = Fulfilled e /\
    (outcome (descentLoop tinyConfig (failingBelow 300 (linearEncoder 1 20))
                (startWidth tinyConfig (Some 2000)) 0) = Fulfilled (Some e) \/
     outcome (descentLoop tinyConfig (failingBelow 300 (linearEncoder 1 20))
                (startWidth tinyConfig (Some 2000)) 0) = Fulfilled None /\
     bestEffort e = Some true).
Proof.
  assert (H1 : Forall (answered (failingBelow 300 (linearEncoder 1 20)))
                 (trace (findBestEncode tinyConfig
                           (failingBelow 300 (linearEncoder 1 20))
                           (Some 2000)))).
  { apply Forall_forall. intros ev Hin.
    assert (Hb : forallb (fun ev => match ev with
                                    | Encode w _ => 300 <=? w
                                    | Round _ _ => true
                                    end)
                   (trace (findBestEncode tinyConfig
                             (failingBelow 300 (linearEncoder 1 20))
                             (Some 2000))) = true)
      by (vm_compute; reflexivity).
    rewrite forallb_forall in Hb. specialize (Hb ev Hin).
    destruct ev as [a w | w q]; [exact I | ].
    apply Z.leb_le in Hb. unfold answered, failingBelow.
    destruct (Z.ltb_spec w 300); [lia | apply linearEncoder_answers]. }
  split; [exact H1 | ].
  exact (findBestEncode_always_returns tinyConfig
           (failingBelow 300 (linearEncoder 1 20)) (Some 2000) H1).
Defined.

Lemma findBestEncode_terminates_witness :
  MIN_Q tinyConfig <= MAX_Q tinyConfig /\
  0 <= MAX_DOWNSCALES tinyConfig /\
  (forall w,
      Z.of_nat (length (trace (qualitySearch tinyConfig (linearEncoder 1 20) w)))
      <= Z.log2 (MAX_Q tinyConfig - MIN_Q tinyConfig + 1) + 1) /\
  (MIN_Q tinyConfig = MAX_Q tinyConfig ->
   forall w, trace (qualitySearch tinyConfig (linearEncoder 1 20) w)
             = [Encode w (MIN_Q tinyConfig)]) /\
  Z.of_nat (length (roundWidths
    (trace (findBestEncode tinyConfig (linearEncoder 1 20) (Some 2000)))))
  <= MAX_DOWNSCALES tinyConfig + 1 /\
  roundAttempts
    (trace (findBestEncode tinyConfig (linearEncoder 1 20) (Some 2000))) =
  map Z.of_nat
      (seq 0 (length (roundWidths
         (trace (findBestEncode tinyConfig (linearEncoder 1 20)
                   (Some 2000)))))) /\
  Z.of_nat (length (probes
    (trace (findBestEncode tinyConfig (linearEncoder 1 20) (Some 2000)))))
  <= (MAX_DOWNSCALES tinyConfig + 1)
     * (Z.log2 (MAX_Q tinyConfig - MIN_Q tinyConfig + 1) + 1) + 1 /\
  ((forall w q, exists b, linearEncoder 1 20 w q = Fulfilled b) ->
   exists e,
     outcome (findBestEncode tinyConfig (linearEncoder 1 20) (Some 2000))
     = Fulfilled e).
Proof.
  assert (H1 : MIN_Q tinyConfig <= MAX_Q tinyConfig)
    by (vm_compute; discriminate).
  assert (H2 : 0 <= MAX_DOWNSCALES tinyConfig) by (vm_compute; discriminate).
  repeat (split; [assumption | ]).
  exact (findBestEncode_terminates tinyConfig (linearEncoder 1 20)
           (Some 2000) H1 H2).
Defined.

Lemma encoder_failure_propagates_witness :
  In (Encode 1440 80)
     (trace (findBestEncode tinyConfig
               (failingBelow 1500 (linearEncoder 1 20)) (Some 2000))) /\
  failingBelow 1500 (linearEncoder 1 20) 1440 80
  = Rejected "resize failed"%string /\
  outcome (findBestEncode tinyConfig
             (failingBelow 1500 (linearEncoder 1 20)) (Some 2000))
  = Rejected "resize failed"%string /\
  exists pre,
    trace (findBestEncode tinyConfig
             (failingBelow 1500 (linearEncoder 1 20)) (Some 2000))
    = pre ++ [Encode 1440 80] /\
    Forall (answered (failingBelow 1500 (linearEncoder 1 20))) pre /\
    ~ In (Encode 1440 80) pre.
Proof.
  assert (H1 : In (Encode 1440 80)
                  (trace (findBestEncode tinyConfig
                            (failingBelow 1500 (linearEncoder 1 20))
                            (Some 2000))))
    by (vm_compute; tauto).
  assert (H2 : failingBelow 1500 (linearEncoder 1 20) 1440 80
               = Rejected "resize failed"%string)
    by reflexivity.
  repeat (split; [assumption | ]).
  exact (encoder_failure_propagates tinyConfig
           (failingBelow 1500 (linearEncoder 1 20)) (Some 2000) 1440 80
           "resize failed"%string H1 H2).
Defined.

Lemma bestEffort_absent_or_true_witness :
  outcome (findBestEncode tinyConfig (linearEncoder 1 125) (Some 2000))
  = Fulfilled fitOutcome /\
  ((outcome (descentLoop tinyConfig (linearEncoder 1 125)
               (startWidth tinyConfig (Some 2000)) 0)
    = Fulfilled (Some fitOutcome) /\
    bestEffort fitOutcome = None /\
    bytes fitOutcome <= TARGET_BYTES tinyConfig) \/
   (outcome (descentLoop tinyConfig (linearEncoder 1 125)
               (startWidth tinyConfig (Some 2000)) 0) = Fulfilled None /\
    bestEffort fitOutcome = Some true)).
Proof.
  assert (H1 : outcome (findBestEncode tinyConfig (linearEncoder 1 125)
                          (Some 2000)) = Fulfilled fitOutcome)
    by (vm_compute; reflexivity).
  split; [exact H1 | ].
  exact (bestEffort_absent_or_true tinyConfig (linearEncoder 1 125)
           (Some 2000) fitOutcome H1).
Defined.


Lemma falsy_width_defaults_to_max_witness :
  (@None Z = None \/ @None Z = Some 0) /\
  0 <= MAX_DOWNSCALES tinyConfig /\
  startWidth tinyConfig None = MAX_WIDTH tinyConfig /\
  hd_error (trace (findBestEncode tinyConfig (linearEncoder 1 20) None))
  = Some (Round 0 (MAX_WIDTH tinyConfig)) /\
  (forall e,
      outcome (findBestEncode tinyConfig (linearEncoder 1 20) None)
      = Fulfilled e ->
      bestEffort e = Some true ->
      width e = MAX_WIDTH tinyConfig /\
      last (trace (findBestEncode tinyConfig (linearEncoder 1 20) None))
           (Round 0 0)
      = Encode (MAX_WIDTH tinyConfig) (MIN_Q tinyConfig)) /\
  (forall l,
      run (findBestEncode tinyConfig (linearEncoder 1 20) None) l
      = run (findBestEncode tinyConfig (linearEncoder 1 20)
               (Some (MAX_WIDTH tinyConfig))) l).
Proof.
  assert (H1 : @None Z = None \/ @None Z = Some 0) by (left; reflexivity).
  assert (H2 : 0 <= MAX_DOWNSCALES tinyConfig) by (vm_compute; discriminate).
  repeat (split; [assumption | ]).
  exact (falsy_width_defaults_to_max tinyConfig (linearEncoder 1 20) None
           H1 H2).
Defined.

(** C8 as stated fails: the outcome of a search that met the budget carries
    no boolean bestEffort flag, neither false nor true. *)
Lemma qualifying_outcome_has_no_flag :
  exists e,
    outcome (findBestEncode tinyConfig (linearEncoder 1 125) (Some 2000))
    = Fulfilled e /\
    bytes e <= TARGET_BYTES tinyConfig /\
    ~ (exists flag : bool, bestEffort e = Some flag).
Proof.
  exists fitOutcome. split; [vm_compute; reflexivity | ]. split.
  - vm_compute. discriminate.
  - intros [flag Hflag]. discriminate.
Qed.

(** C4 on an image narrower than the floor: for a natural width of 200 and
    an encoder that never fits the budget, the descent starts at
    min(200, MAX_WIDTH) = 200 and its second round passes 320 to the
    encoder, wider than the first round and than the image. *)
Theorem narrow_image_is_widened :
  startWidth tinyConfig (Some 200) = 200 /\
  roundWidths
    (trace (findBestEncode tinyConfig (linearEncoder 1 10) (Some 200)))
  = [200; 320] /\
  trace (findBestEncode tinyConfig (linearEncoder 1 10) (Some 200)) =
  [Round 0 200; Encode 200 80; Encode 200 72; Encode 200 68; Encode 200 66;
   Encode 200 65;
   Round 1 320; Encode 320 80; Encode 320 72; Encode 320 68; Encode 320 66;
   Encode 320 65;
   Encode 200 65].
Proof. repeat split; vm_compute; reflexivity. Qed.

(** The scenarios of the specification, scaled to the 1 KB budget. *)

Example scenario_descent_to_1440 :
  outcome (findBestEncode tinyConfig (linearEncoder 1 100) (Some 1600)) =
  Fulfilled {| buf := repeat Byte.x00 1022; width := 1440; quality := 71;
               bytes := 1022; bestEffort := None |} /\
  roundWidths
    (trace (findBestEncode tinyConfig (linearEncoder 1 100) (Some 1600)))
  = [1600; 1440].
Proof. split; vm_compute; reflexivity. Qed.

Example scenario_best_effort_at_start_width :
  outcome (findBestEncode tinyConfig (linearEncoder 1 10) (Some 400)) =
  Fulfilled {| buf := repeat Byte.x00 2600; width := 400; quality := 65;
               bytes := 2600; bestEffort := Some true |} /\
  roundWidths
    (trace (findBestEncode tinyConfig (linearEncoder 1 10) (Some 400)))
  = [400; 360; 324; 320].
Proof. split; vm_compute; reflexivity. Qed.

(** ** More on the search *)

Section SearchOutcomes.

Variable cfg : Config.
Variable encoder : Z -> Z -> Settled Buffer.

Local Abbreviation startWidth := (startWidth cfg).
Local Abbreviation nextWidth := (nextWidth cfg).
Local Abbreviation qualityLoop := (qualityLoop cfg encoder).
Local Abbreviation qualitySearch := (qualitySearch cfg encoder).
Local Abbreviation descentLoop := (descentLoop cfg encoder).
Local Abbreviation findBestEncode := (findBestEncode cfg encoder).
Local Abbreviation fits := (fits cfg encoder).
Local Abbreviation exceeds := (exceeds cfg encoder).
Local Abbreviation answersOn := (answersOn encoder).
Local Abbreviation monotoneOn := (monotoneOn encoder).

(** A candidate found by the inner loop was probed by it. *)
Lemma qualityLoop_some_probed (w : Z) :
  forall lo hi best e,
    outcome (qualityLoop w lo hi best) = Fulfilled (Some e) ->
    best = Some e \/
    exists q b,
      lo <= q <= hi /\ encoder w q = Fulfilled b /\
      buf_length b <= TARGET_BYTES cfg /\ e = candidate w q b /\
      In (Encode w q) (trace (qualityLoop w lo hi best)).
Proof.
  intros lo hi. pattern lo, hi. apply range_ind. clear lo hi.
  intros lo hi IH best e.
  rewrite (qualityLoop_outcome cfg encoder w lo hi best).
  rewrite (qualityLoop_trace cfg encoder w lo hi best).
  destruct (lo <=? hi) eqn:Hle; [ | intros [= ->]; now left].
  apply Z.leb_le in Hle.
  pose proof (round_half_bounds lo hi Hle) as Hmid. cbn zeta.
  set (mid := Js.round_half (lo + hi)) in *.
  destruct (encoder w mid) as [b | err] eqn:Hb; [ | discriminate].
  destruct (buf_length b <=? TARGET_BYTES cfg) eqn:Hfit; intros Hout.
  - apply Z.leb_le in Hfit. right.
    apply IH in Hout; [ | lia | exact Hle].
    destruct Hout as [[= <-] | [q [c [Hq [Hc [Hlen [-> Hin]]]]]]].
    + exists mid, b. repeat split; try lia; try assumption. now left.
    + exists q, c. repeat split; try lia; try assumption. now right.
  - apply IH in Hout; [ | lia | exact Hle].
    destruct Hout as [-> | [q [c [Hq [Hc [Hlen [-> Hin]]]]]]]; [now left | ].
    right. exists q, c. repeat split; try lia; try assumption. now right.
Qed.

(** A search that comes back empty-handed has called the encoder at the
    lowest quality of its range. *)
Lemma qualityLoop_none_probed (w : Z) :
  forall lo hi,
    lo <= hi ->
    outcome (qualityLoop w lo hi None) = Fulfilled None ->
    In (Encode w lo) (trace (qualityLoop w lo hi None)).
Proof.
  intros lo hi. pattern lo, hi. apply range_ind. clear lo hi.
  intros lo hi IH Hle.
  rewrite (qualityLoop_outcome cfg encoder w lo hi None).
  rewrite (qualityLoop_trace cfg encoder w lo hi None).
  pose proof (round_half_bounds lo hi Hle) as Hmid.
  apply Z.leb_le in Hle as Hleb. rewrite Hleb. cbn zeta.
  set (mid := Js.round_half (lo + hi)) in *.
  destruct (encoder w mid) as [b | err] eqn:Hb; [ | discriminate].
  destruct (buf_length b <=? TARGET_BYTES cfg) eqn:Hfit; intros Hout.
  - now apply qualityLoop_keeps in Hout.
  - destruct (Z.eq_dec mid lo) as [Heq | Hne].
    + left. now rewrite Heq.
    + right. apply (IH lo (mid - 1)); [lia | exact Hle | lia | exact Hout].
Qed.

(** What the descent returns, against the widths of its rounds: a
    candidate is the record of a probe of the last round, and at every other
    width tried the encode at MIN_Q was over the budget. *)
Lemma descentLoop_result :
  MIN_Q cfg <= MAX_Q cfg ->
  forall a w r,
    outcome (descentLoop w a) = Fulfilled r ->
    match r with
    | Some e =>
        exists q b pre,
          MIN_Q cfg <= q <= MAX_Q cfg /\
          encoder (width e) q = Fulfilled b /\
          buf_length b <= TARGET_BYTES cfg /\
          e = candidate (width e) q b /\
          In (Encode (width e) q) (trace (descentLoop w a)) /\
          roundWidths (trace (descentLoop w a)) = pre ++ [width e] /\
          Forall (fun w' => exceeds w' (MIN_Q cfg)) pre
    | None =>
        Forall (fun w' => exceeds w' (MIN_Q cfg))
               (roundWidths (trace (descentLoop w a)))
    end.
Proof.
  intros Hq a. pattern a. apply (attempt_ind cfg). clear a.
  intros a IH w r.
  rewrite (descentLoop_outcome cfg encoder w a).
  rewrite (descentLoop_trace cfg encoder w a).
  destruct (a <=? MAX_DOWNSCALES cfg) eqn:Hle;
    [ | intros [= <-]; constructor].
  apply Z.leb_le in Hle.
  destruct (qualitySearch_no_round cfg encoder w) as [Hnone _].
  cbn [roundWidths]. rewrite roundWidths_app, Hnone. cbn [app].
  destruct (outcome (qualitySearch w)) as [[e | ] | err] eqn:Hs;
    [ | | discriminate].
  - intros [= <-]. apply qualityLoop_some_probed in Hs.
    destruct Hs as [[=] | [q [b [Hrange [Hb [Hlen [-> Hin]]]]]]].
    exists q, b, []. cbn [width candidate].
    split; [exact Hrange | ]. split; [exact Hb | ]. split; [exact Hlen | ].
    split; [reflexivity | ]. split; [ | split; [reflexivity | constructor]].
    right. apply in_or_app. now left.
  - pose proof (qualityLoop_none cfg encoder w _ _ Hq Hs) as Hover.
    destruct (nextWidth w =? w).
    + intros [= <-]. cbn. repeat constructor. exact Hover.
    + intros Hout. specialize (IH Hle (nextWidth w) r Hout).
      destruct r as [e | ].
      * destruct IH as [q [b [pre [Hrange [Hb [Hlen [He [Hin [Hws Hpre]]]]]]]]].
        exists q, b, (w :: pre). repeat split; try lia; try assumption.
        -- right. apply in_or_app. now right.
        -- cbn. now rewrite Hws.
        -- constructor; assumption.
      * constructor; assumption.
Qed.

Lemma findBestEncode_roundWidths (metaWidth : option Z) :
  roundWidths (trace (findBestEncode metaWidth)) =
  roundWidths (trace (descentLoop (startWidth metaWidth) 0)).
Proof.
  rewrite (findBestEncode_trace cfg encoder metaWidth), roundWidths_app.
  destruct (outcome (descentLoop (startWidth metaWidth) 0)) as [[r | ] | e];
    cbn [roundWidths]; apply app_nil_r.
Qed.

(** A best-effort outcome comes from a descent without candidate. *)
Lemma bestEffort_from_empty_descent (metaWidth : option Z) (e : Encoded) :
  outcome (findBestEncode metaWidth) = Fulfilled e ->
  bestEffort e = Some true ->
  outcome (descentLoop (startWidth metaWidth) 0) = Fulfilled None /\
  exists b,
    encoder (startWidth metaWidth) (MIN_Q cfg) = Fulfilled b /\
    e = {| buf := b; width := startWidth metaWidth; quality := MIN_Q cfg;
           bytes := buf_length b; bestEffort := Some true |}.
Proof.
  rewrite (findBestEncode_outcome cfg encoder metaWidth).
  destruct (outcome (descentLoop (startWidth metaWidth) 0))
    as [[r | ] | err] eqn:Hd; [ | | discriminate].
  - intros [= ->] Hflag. apply descentLoop_some in Hd.
    destruct Hd as [w' [q [b [_ [_ [_ ->]]]]]]. discriminate.
  - destruct (encoder (startWidth metaWidth) (MIN_Q cfg)) as [b | err] eqn:Hb;
      [ | discriminate].
    intros [= <-] _. split; [reflexivity | now exists b].
Qed.

(** An outcome without the flag is the candidate of the descent. *)
Lemma unflagged_from_descent (metaWidth : option Z) (e : Encoded) :
  outcome (findBestEncode metaWidth) = Fulfilled e ->
  bestEffort e = None ->
  outcome (descentLoop (startWidth metaWidth) 0) = Fulfilled (Some e).
Proof.
  rewrite (findBestEncode_outcome cfg encoder metaWidth).
  destruct (outcome (descentLoop (startWidth metaWidth) 0))
    as [[r | ] | err] eqn:Hd; [ | | discriminate].
  - now intros [= ->] _.
  - destruct (encoder (startWidth metaWidth) (MIN_Q cfg)); [ | discriminate].
    intros [= <-]. discriminate.
Qed.

(** The two shapes of an outcome. *)
Lemma outcome_shape (metaWidth : option Z) (e : Encoded) :
  outcome (findBestEncode metaWidth) = Fulfilled e ->
  (exists w q b,
      e = candidate w q b /\ buf_length b <= TARGET_BYTES cfg) \/
  (exists b,
      e = {| buf := b; width := startWidth metaWidth; quality := MIN_Q cfg;
             bytes := buf_length b; bestEffort := Some true |}).
Proof.
  rewrite (findBestEncode_outcome cfg encoder metaWidth).
  destruct (outcome (descentLoop (startWidth metaWidth) 0))
    as [[r | ] | err] eqn:Hd; [ | | discriminate].
  - intros [= ->]. left. apply descentLoop_some in Hd.
    destruct Hd as [w' [q [b [_ [_ [Hlen ->]]]]]]. now exists w', q, b.
  - destruct (encoder (startWidth metaWidth) (MIN_Q cfg)) as [b | err];
      [ | discriminate].
    intros [= <-]. right. now exists b.
Qed.

(** X1: a best-effort outcome is never within the budget.  It is the encode
    at (starting width, MIN_Q), which the first round of the descent had
    already requested and found over TARGET_BYTES; the fallback asks the
    encoder for it a second time. *)
Theorem bestEffort_outcome_over_budget (metaWidth : option Z) (e : Encoded) :
  MIN_Q cfg <= MAX_Q cfg ->
  0 <= MAX_DOWNSCALES cfg ->
  outcome (findBestEncode metaWidth) = Fulfilled e ->
  bestEffort e = Some true ->
  TARGET_BYTES cfg < bytes e /\
  In (Encode (startWidth metaWidth) (MIN_Q cfg))
     (trace (descentLoop (startWidth metaWidth) 0)) /\
  trace (findBestEncode metaWidth) =
  trace (descentLoop (startWidth metaWidth) 0)
  ++ [Encode (startWidth metaWidth) (MIN_Q cfg)].
Proof.
  intros Hq Hd Hout Hflag.
  destruct (bestEffort_from_empty_descent metaWidth e Hout Hflag)
    as [Hnone [b [Hb ->]]].
  rewrite (findBestEncode_trace cfg encoder metaWidth), Hnone.
  rewrite (descentLoop_outcome cfg encoder) in Hnone.
  rewrite (descentLoop_trace cfg encoder).
  apply Z.leb_le in Hd. rewrite Hd in *.
  destruct (outcome (qualitySearch (startWidth metaWidth)))
    as [[r | ] | err] eqn:Hs; [discriminate | | discriminate].
  pose proof (qualityLoop_none cfg encoder _ _ _ Hq Hs) as [c [Hc Hover]].
  pose proof (qualityLoop_none_probed _ _ _ Hq Hs) as Hin.
  rewrite Hb in Hc. injection Hc as <-.
  split; [exact Hover | ]. split; [ | reflexivity].
  right. apply in_or_app. now left.
Qed.

(** X2: what findBestEncode returns is an answer of the encoder: the buffer
    is the one the encoder gave for the width and quality of the record,
    bytes is its length, the quality lies in [MIN_Q, MAX_Q], and that call
    is in the trace of the run. *)
Theorem outcome_is_an_encoder_answer (metaWidth : option Z) (e : Encoded) :
  MIN_Q cfg <= MAX_Q cfg ->
  outcome (findBestEncode metaWidth) = Fulfilled e ->
  encoder (width e) (quality e) = Fulfilled (buf e) /\
  bytes e = buf_length (buf e) /\
  MIN_Q cfg <= quality e <= MAX_Q cfg /\
  In (Encode (width e) (quality e)) (trace (findBestEncode metaWidth)).
Proof.
  intros Hq Hout.
  rewrite (findBestEncode_trace cfg encoder metaWidth).
  rewrite (findBestEncode_outcome cfg encoder metaWidth) in Hout.
  destruct (outcome (descentLoop (startWidth metaWidth) 0))
    as [[r | ] | err] eqn:Hd; [ | | discriminate].
  - injection Hout as ->.
    apply (descentLoop_result Hq) in Hd.
    destruct Hd as [q [b [pre [Hrange [Hb [_ [He [Hin _]]]]]]]].
    rewrite He. cbn [width quality buf bytes candidate].
    rewrite He in Hb, Hin. cbn [width candidate] in Hb, Hin.
    repeat split; try lia; try assumption.
    apply in_or_app. now left.
  - destruct (encoder (startWidth metaWidth) (MIN_Q cfg)) as [b | err] eqn:Hb;
      [ | discriminate].
    injection Hout as <-. cbn [width quality buf bytes].
    repeat split; try lia; try assumption.
    apply in_or_app. right. now left.
Qed.

(** X3: the search gives up width only when it has to.  The width of an
    outcome that is not best-effort is the width of the last round, and at
    the width of every earlier round the encode at MIN_Q was over
    TARGET_BYTES; for a best-effort outcome that holds of every round. *)
Theorem narrower_only_when_wider_fails (metaWidth : option Z) (e : Encoded) :
  MIN_Q cfg <= MAX_Q cfg ->
  outcome (findBestEncode metaWidth) = Fulfilled e ->
  (bestEffort e = None ->
   exists pre,
     roundWidths (trace (findBestEncode metaWidth)) = pre ++ [width e] /\
     Forall (fun w' => exceeds w' (MIN_Q cfg)) pre) /\
  (bestEffort e = Some true ->
   Forall (fun w' => exceeds w' (MIN_Q cfg))
          (roundWidths (trace (findBestEncode metaWidth)))).
Proof.
  intros Hq Hout. rewrite findBestEncode_roundWidths. split; intros Hflag.
  - pose proof (unflagged_from_descent metaWidth e Hout Hflag) as Hd.
    apply (descentLoop_result Hq) in Hd.
    destruct Hd as [q [b [pre [_ [_ [_ [_ [_ [Hws Hpre]]]]]]]]].
    now exists pre.
  - destruct (bestEffort_from_empty_descent metaWidth e Hout Hflag)
      as [Hd _].
    exact (descentLoop_result Hq _ _ _ Hd).
Qed.

(** X4: with SCALE_STEP in the range [[0.5, 0.99]] that line 62 clamps it
    to, and the product of line 122 rounded to a double as JavaScript rounds
    it: for an image and a MAX_WIDTH of at least 320 pixels, the width of
    the outcome is between the floor of 320 and the starting width, hence
    never above MAX_WIDTH nor above the natural width of the image. *)
Theorem outcome_width_within_bounds (metaWidth : option Z) (e : Encoded) :
  (1 # 2 <= SCALE_STEP cfg <= 99 # 100)%Q ->
  MIN_Q cfg <= MAX_Q cfg ->
  320 <= startWidth metaWidth ->
  outcome (findBestEncode metaWidth) = Fulfilled e ->
  320 <= width e <= startWidth metaWidth /\
  width e <= MAX_WIDTH cfg /\
  (forall n, metaWidth = Some n -> n <> 0 -> width e <= n).
Proof.
  intros Hs Hq Hw Hout.
  assert (Hstart : startWidth metaWidth <= MAX_WIDTH cfg)
    by apply Z.le_min_r.
  assert (Hnat : forall n, metaWidth = Some n -> n <> 0 ->
                           startWidth metaWidth <= n).
  { intros n -> Hn. unfold startWidth, Js.or_else.
    apply Z.eqb_neq in Hn. rewrite Hn. apply Z.le_min_l. }
  assert (Hwidth : 320 <= width e <= startWidth metaWidth).
  { destruct (findBestEncode_widths_decrease cfg encoder metaWidth Hs Hw)
      as [_ Hall].
    rewrite findBestEncode_roundWidths in Hall.
    rewrite (findBestEncode_outcome cfg encoder metaWidth) in Hout.
    destruct (outcome (descentLoop (startWidth metaWidth) 0))
      as [[r | ] | err] eqn:Hd; [ | | discriminate].
    - injection Hout as ->. apply (descentLoop_result Hq) in Hd.
      destruct Hd as [q [b [pre [_ [_ [_ [_ [_ [Hws _]]]]]]]]].
      rewrite Hws in Hall. apply Forall_app in Hall as [_ Hall].
      now apply Forall_inv in Hall.
    - destruct (encoder (startWidth metaWidth) (MIN_Q cfg)); [ | discriminate].
      injection Hout as <-. cbn [width]. lia. }
  split; [exact Hwidth | ]. split; [lia | ].
  intros n Hn Hnz. specialize (Hnat n Hn Hnz). lia.
Qed.

(** X5: when the encode at MIN_Q fits at the starting width, and the
    encoder is monotone in quality there, nothing is downscaled: the search
    runs a single round and returns, unflagged, the highest quality of
    [MIN_Q, MAX_Q] that fits at the starting width. *)
Theorem no_downscale_when_start_fits (metaWidth : option Z) :
  MIN_Q cfg <= MAX_Q cfg ->
  0 <= MAX_DOWNSCALES cfg ->
  answersOn (startWidth metaWidth) (MIN_Q cfg) (MAX_Q cfg) ->
  monotoneOn (startWidth metaWidth) (MIN_Q cfg) (MAX_Q cfg) ->
  fits (startWidth metaWidth) (MIN_Q cfg) ->
  exists q b,
    outcome (findBestEncode metaWidth)
    = Fulfilled (candidate (startWidth metaWidth) q b) /\
    MIN_Q cfg <= q <= MAX_Q cfg /\
    encoder (startWidth metaWidth) q = Fulfilled b /\
    buf_length b <= TARGET_BYTES cfg /\
    (forall q', q < q' <= MAX_Q cfg -> exceeds (startWidth metaWidth) q') /\
    roundWidths (trace (findBestEncode metaWidth)) = [startWidth metaWidth].
Proof.
  intros Hq Hd Hans Hmono Hfit.
  destruct (qualityLoop_spec cfg encoder (startWidth metaWidth) _ _
              Hans Hmono None) as [r [Hr Hcase]].
  destruct Hcase as [[-> Hnone] | [q [b [Hrange [Hb [Hlen [-> Habove]]]]]]].
  { exfalso. apply (Hnone (MIN_Q cfg)); [lia | exact Hfit]. }
  assert (Hdesc : outcome (descentLoop (startWidth metaWidth) 0)
                  = Fulfilled (Some (candidate (startWidth metaWidth) q b))).
  { rewrite (descentLoop_outcome cfg encoder).
    apply Z.leb_le in Hd. rewrite Hd.
    unfold qualitySearch. now rewrite Hr. }
  exists q, b.
  rewrite (findBestEncode_outcome cfg encoder metaWidth), Hdesc.
  repeat split; try lia; try assumption.
  - intros q' Hq'.
    apply not_fits_exceeds; [apply Hans; lia | now apply Habove].
  - rewrite findBestEncode_roundWidths.
    rewrite (descentLoop_trace cfg encoder).
    apply Z.leb_le in Hd. rewrite Hd.
    destruct (qualitySearch_no_round cfg encoder (startWidth metaWidth))
      as [Hnone _].
    cbn [roundWidths]. rewrite roundWidths_app, Hnone.
    unfold qualitySearch. now rewrite Hr.
Qed.

Lemma nextWidth_stalls_at_floor (w : Z) :
  (1 # 2 <= SCALE_STEP cfg <= 99 # 100)%Q -> nextWidth w = w -> w = 320.
Proof.
  intros Hs Heq.
  assert (Hw : 320 <= w).
  { rewrite <- Heq. unfold nextWidth. apply Z.le_max_l. }
  now apply (nextWidth_bounds cfg w Hs Hw).
Qed.

(** A descent that ends without candidate stopped at the floor or used up
    its attempts. *)
Lemma descentLoop_none_stops :
  (1 # 2 <= SCALE_STEP cfg <= 99 # 100)%Q ->
  forall a w,
    a <= MAX_DOWNSCALES cfg ->
    outcome (descentLoop w a) = Fulfilled None ->
    last (roundWidths (trace (descentLoop w a))) 0 = 320 \/
    Z.of_nat (length (roundWidths (trace (descentLoop w a))))
    = MAX_DOWNSCALES cfg + 1 - a.
Proof.
  intros Hs a. pattern a. apply (attempt_ind cfg). clear a.
  intros a IH w Hle.
  rewrite (descentLoop_outcome cfg encoder w a).
  rewrite (descentLoop_trace cfg encoder w a).
  apply Z.leb_le in Hle as Hleb. rewrite Hleb.
  destruct (qualitySearch_no_round cfg encoder w) as [Hnone _].
  cbn [roundWidths]. rewrite roundWidths_app, Hnone. cbn [app].
  destruct (outcome (qualitySearch w)) as [[e | ] | err];
    [discriminate | | discriminate].
  destruct (nextWidth w =? w) eqn:Hnext.
  - intros _. left. apply Z.eqb_eq in Hnext. cbn.
    now apply nextWidth_stalls_at_floor.
  - intros Hout.
    destruct (Z_le_gt_dec (a + 1) (MAX_DOWNSCALES cfg)) as [Hmore | Hlast].
    + specialize (IH Hle (nextWidth w) Hmore Hout).
      rewrite (descentLoop_trace cfg encoder (nextWidth w) (a + 1)) in *.
      apply Z.leb_le in Hmore. rewrite Hmore in *.
      cbn [roundWidths] in *. cbn [last length].
      destruct IH as [IH | IH]; [now left | right].
      cbn [length] in IH. lia.
    + right. rewrite (descentLoop_trace cfg encoder (nextWidth w) (a + 1)).
      replace (a + 1 <=? MAX_DOWNSCALES cfg) with false
        by (symmetry; apply Z.leb_gt; lia).
      cbn. lia.
Qed.

(** X6: with SCALE_STEP in the range [[0.5, 0.99]] that line 62 clamps it
    to, and the product of line 122 rounded to a double as JavaScript rounds
    it: the search falls back to best effort only at the end of the
    descent: the last round ran at the floor width of 320, or all
    MAX_DOWNSCALES + 1 rounds were used. *)
Theorem bestEffort_only_at_floor_or_limit
    (metaWidth : option Z) (e : Encoded) :
  (1 # 2 <= SCALE_STEP cfg <= 99 # 100)%Q ->
  0 <= MAX_DOWNSCALES cfg ->
  outcome (findBestEncode metaWidth) = Fulfilled e ->
  bestEffort e = Some true ->
  last (roundWidths (trace (findBestEncode metaWidth))) 0 = 320 \/
  Z.of_nat (length (roundWidths (trace (findBestEncode metaWidth))))
  = MAX_DOWNSCALES cfg + 1.
Proof.
  intros Hs Hd Hout Hflag.
  destruct (bestEffort_from_empty_descent metaWidth e Hout Hflag) as [Hnone _].
  rewrite findBestEncode_roundWidths.
  destruct (descentLoop_none_stops Hs 0 (startWidth metaWidth) Hd Hnone)
    as [H | H]; [now left | right; lia].
Qed.

End SearchOutcomes.

(** ** The command line *)

Lemma substring_all (s : string) : String.substring 0 (String.length s) s = s.
Proof. induction s as [ | c s IH]; cbn; [reflexivity | now rewrite IH]. Qed.

Lemma stripDashes_flag (k : string) : stripDashes ("--" ++ k) = k.
Proof.
  unfold stripDashes. cbn.
  replace (String.prefix "" k) with true by (now destruct k).
  rewrite Nat.sub_0_r. apply substring_all.
Qed.

Lemma startsWithDashes_flag (k : string) : startsWithDashes ("--" ++ k) = true.
Proof. unfold startsWithDashes. cbn. now destruct k. Qed.

(** A token that starts with two dashes is the flag of its key. *)
Lemma startsWithDashes_inv (a : string) :
  startsWithDashes a = true -> a = ("--" ++ stripDashes a)%string.
Proof.
  unfold startsWithDashes, stripDashes. intros H. rewrite H.
  apply String.prefix_correct in H.
  destruct a as [ | c1 [ | c2 a]]; cbn in H; try discriminate.
  injection H as -> -> _. cbn. now rewrite Nat.sub_0_r, substring_all.
Qed.

Lemma mapGet_mapSet (m : ArgMap) (k k' : string) (v : ArgValue) :
  mapGet (mapSet m k v) k' =
  if String.eqb k k' then Some v else mapGet m k'.
Proof.
  induction m as [ | [k0 v0] m IH]; cbn.
  - reflexivity.
  - destruct (String.eqb k0 k) eqn:E0; cbn.
    + apply String.eqb_eq in E0. subst k0.
      destruct (String.eqb k k'); reflexivity.
    + rewrite IH. destruct (String.eqb k0 k') eqn:E1; [ | reflexivity].
      apply String.eqb_eq in E1. subst k0.
      rewrite String.eqb_sym in E0. now rewrite E0.
Qed.

(** Induction on a list two elements at a time, as the loop consumes it. *)
Lemma list_ind2 {A} (P : list A -> Prop) :
  P [] -> (forall x, P [x]) ->
  (forall x y l, P l -> P (y :: l) -> P (x :: y :: l)) ->
  forall l, P l.
Proof.
  intros H0 H1 H2 l.
  assert (H : P l /\ forall x, P (x :: l)).
  { induction l as [ | y l [IHl IHy]]; [now split | ].
    split; [apply IHy | ]. intros x. apply H2; [exact IHl | apply IHy]. }
  apply H.
Qed.

Lemma parseLoop_cons2 (x y : string) (l : list string) (args : ArgMap) :
  parseLoop (x :: y :: l) args =
  if startsWithDashes x then
    if String.eqb y "" || startsWithDashes y
    then parseLoop (y :: l) (mapSet args (stripDashes x) ArgTrue)
    else parseLoop l (mapSet args (stripDashes x) (ArgString y))
  else parseLoop (y :: l) args.
Proof. reflexivity. Qed.

(** A flag is never taken for a value: the loop reads it as a flag whatever
    comes before it. *)
Lemma parseLoop_at_flag (a : string) (rest : list string) :
  startsWithDashes a = true ->
  forall pre args,
    parseLoop (pre ++ a :: rest) args = parseLoop (a :: rest) (parseLoop pre args).
Proof.
  intros Ha pre. induction pre as [ | x | x y pre IH IHy] using list_ind2;
    intros args.
  - reflexivity.
  - cbn [app parseLoop]. destruct (startsWithDashes x); [ | reflexivity].
    rewrite Ha, orb_true_r. reflexivity.
  - change ((x :: y :: pre) ++ a :: rest) with (x :: y :: (pre ++ a :: rest)).
    cbn [parseLoop]. destruct (startsWithDashes x).
    + destruct (String.eqb y "" || startsWithDashes y).
      * change (y :: pre ++ a :: rest) with ((y :: pre) ++ a :: rest).
        apply IHy.
      * apply IH.
    + change (y :: pre ++ a :: rest) with ((y :: pre) ++ a :: rest).
      apply IHy.
Qed.

(** Tokens other than [--key] leave the entry of [key] alone. *)
Lemma parseLoop_other_keys (key : string) :
  forall argv args,
    ~ In ("--" ++ key)%string argv ->
    mapGet (parseLoop argv args) key = mapGet args key.
Proof.
  assert (Hset : forall a args v,
             startsWithDashes a = true -> a <> ("--" ++ key)%string ->
             mapGet (mapSet args (stripDashes a) v) key = mapGet args key).
  { intros a args v Ha Hne. rewrite mapGet_mapSet.
    destruct (String.eqb (stripDashes a) key) eqn:E; [ | reflexivity].
    apply String.eqb_eq in E. exfalso. apply Hne.
    rewrite (startsWithDashes_inv a Ha). now rewrite E. }
  intros argv. induction argv as [ | x | x y argv IH IHy] using list_ind2;
    intros args Hno.
  - reflexivity.
  - cbn [parseLoop]. destruct (startsWithDashes x) eqn:Hx; [ | reflexivity].
    apply Hset; [exact Hx | ]. intros ->. apply Hno. now left.
  - rewrite parseLoop_cons2. destruct (startsWithDashes x) eqn:Hx.
    + assert (Hne : x <> ("--" ++ key)%string)
        by (intros ->; apply Hno; now left).
      destruct (String.eqb y "" || startsWithDashes y).
      * rewrite IHy; [now apply Hset | ]. intros H. apply Hno. now right.
      * rewrite IH; [now apply Hset | ]. intros H. apply Hno. now do 2 right.
    + apply IHy. intros H. apply Hno. now right.
Qed.

(** The loop, from any map, at the last flag of a key. *)
Lemma parseLoop_last_flag (key : string) (pre post : list string)
    (args : ArgMap) :
  ~ In ("--" ++ key)%string post ->
  mapGet (parseLoop (pre ++ ("--" ++ key)%string :: post) args) key
  = Some (valueAfter post).
Proof.
  intros Hno.
  rewrite parseLoop_at_flag by apply startsWithDashes_flag.
  destruct post as [ | next rest].
  - cbn [parseLoop valueAfter]. rewrite startsWithDashes_flag, stripDashes_flag.
    now rewrite mapGet_mapSet, String.eqb_refl.
  - rewrite parseLoop_cons2, startsWithDashes_flag, stripDashes_flag.
    cbn [valueAfter].
    destruct (String.eqb next "" || startsWithDashes next).
    + rewrite parseLoop_other_keys by exact Hno.
      now rewrite mapGet_mapSet, String.eqb_refl.
    + rewrite parseLoop_other_keys by (intros H; apply Hno; now right).
      now rewrite mapGet_mapSet, String.eqb_refl.
Qed.

(** X7: the value of a key is decided by the last [--key] token and the
    token after it.  If [--key] stands in the command line and not again
    after that place, [args.get(key)] is the token that follows, or [true]
    when that token is missing, empty or starts with two dashes. *)
Theorem parseArgs_last_flag_wins (key : string) (pre post : list string) :
  ~ In ("--" ++ key)%string post ->
  mapGet (parseArgs (pre ++ ("--" ++ key)%string :: post)) key
  = Some (valueAfter post).
Proof.
  intros Hno. unfold parseArgs. now apply parseLoop_last_flag.
Qed.

(** The last place of an element of a list. *)
Lemma in_split_last (x : string) (l : list string) :
  In x l -> exists pre post, l = pre ++ x :: post /\ ~ In x post.
Proof.
  induction l as [ | y l IH]; [intros [] | ].
  intros Hin. destruct (in_dec string_dec x l) as [Hl | Hl].
  - destruct (IH Hl) as [pre [post [-> Hpost]]].
    now exists (y :: pre), post.
  - destruct Hin as [-> | Hin]; [ | contradiction].
    now exists [], l.
Qed.

(** X8: a key is set exactly when its flag occurs: [args.get(key)] is
    defined if and only if the token [--key] stands somewhere in the command
    line, even right after another flag; every other token sets nothing. *)
Theorem parseArgs_key_iff_flag (key : string) (argv : list string) :
  mapGet (parseArgs argv) key <> None <-> In ("--" ++ key)%string argv.
Proof.
  split.
  - intros Hset. destruct (in_dec string_dec ("--" ++ key)%string argv)
      as [Hin | Hno]; [exact Hin | ].
    exfalso. apply Hset. unfold parseArgs.
    now rewrite parseLoop_other_keys.
  - intros Hin. destruct (in_split_last _ _ Hin) as [pre [post [-> Hpost]]].
    unfold parseArgs. now rewrite parseLoop_last_flag.
Qed.

Lemma valueAfter_string (post : list string) (v : string) :
  valueAfter post = ArgString v ->
  v <> ""%string /\ startsWithDashes v = false /\
  exists rest, post = v :: rest.
Proof.
  destruct post as [ | next rest]; cbn; [discriminate | ].
  destruct (String.eqb next "") eqn:Hempty; cbn; [discriminate | ].
  destruct (startsWithDashes next) eqn:Hdash; [discriminate | ].
  intros [= <-]. apply String.eqb_neq in Hempty.
  repeat split; try assumption. now exists rest.
Qed.

(** X9: a value in the parsed map is always a token of the command line
    that stood right after its flag, is never empty and never starts with
    two dashes. *)
Theorem parseArgs_values (key v : string) (argv : list string) :
  mapGet (parseArgs argv) key = Some (ArgString v) ->
  v <> ""%string /\ startsWithDashes v = false /\
  exists pre post, argv = pre ++ ("--" ++ key)%string :: v :: post.
Proof.
  intros Hget.
  destruct (in_dec string_dec ("--" ++ key)%string argv) as [Hin | Hno].
  - destruct (in_split_last _ _ Hin) as [pre [post [-> Hpost]]].
    unfold parseArgs in Hget. rewrite parseLoop_last_flag in Hget by exact Hpost.
    injection Hget as Hval. apply valueAfter_string in Hval.
    destruct Hval as [Hne [Hdash [rest ->]]].
    repeat split; try assumption. now exists pre, rest.
  - unfold parseArgs in Hget. rewrite parseLoop_other_keys in Hget by exact Hno.
    discriminate.
Qed.

Lemma argTruthy_iff_flag (key : string) (argv : list string) :
  argTruthy (mapGet (parseArgs argv) key) = true
  <-> In ("--" ++ key)%string argv.
Proof.
  split.
  - intros Htrue.
    destruct (in_dec string_dec ("--" ++ key)%string argv) as [Hin | Hno];
      [exact Hin | ].
    unfold parseArgs in Htrue.
    rewrite parseLoop_other_keys in Htrue by exact Hno. discriminate.
  - intros Hin. destruct (in_split_last _ _ Hin) as [pre [post [-> Hpost]]].
    unfold parseArgs. rewrite parseLoop_last_flag by exact Hpost.
    destruct (valueAfter post) as [ | v] eqn:Hval; [reflexivity | ].
    apply valueAfter_string in Hval. destruct Hval as [Hne _].
    cbn. apply String.eqb_neq in Hne. now rewrite Hne.
Qed.

(** X10: replace mode and the deletion of originals are switched on by the
    mere presence of their flag: REPLACE is true exactly when the token
    [--replace] occurs in the command line and DELETE_ORIG exactly when
    [--delete-originals] occurs, whatever follows the flag (so also for
    [--replace false]); in replace mode OUT_DIR is SRC_DIR, whatever
    [--out] says. *)
Theorem switches_follow_flags (host : Host) (argv : list string) :
  (REPLACE (optionsOfArgs host (parseArgs argv)) = true
   <-> In "--replace"%string argv) /\
  (DELETE_ORIG (optionsOfArgs host (parseArgs argv)) = true
   <-> In "--delete-originals"%string argv) /\
  (In "--replace"%string argv ->
   OUT_DIR (optionsOfArgs host (parseArgs argv))
   = SRC_DIR (optionsOfArgs host (parseArgs argv))).
Proof.
  split; [ | split].
  - exact (argTruthy_iff_flag "replace" argv).
  - exact (argTruthy_iff_flag "delete-originals" argv).
  - intros Hin. apply (argTruthy_iff_flag "replace" argv) in Hin.
    unfold optionsOfArgs. cbn [OUT_DIR SRC_DIR]. now rewrite Hin.
Qed.

(** X11: whatever numbers the flags carry, the constants of lines 56-62
    are in range: the budget is at least one KB, MAX_WIDTH at least one
    pixel, 0 <= MIN_Q <= MAX_Q <= 100 (a maximum given below the minimum
    is raised to it), MAX_DOWNSCALES is not negative and SCALE_STEP lies in
    [0.5, 0.99]; qualities given in range are kept. *)
Theorem configOfArgs_clamped (target maxWidth minQ maxQ downs : option Z)
    (scaleStep : option Q) :
  let c := configOfArgs target maxWidth minQ maxQ downs scaleStep in
  1024 <= TARGET_BYTES c /\
  1 <= MAX_WIDTH c /\
  0 <= MIN_Q c <= MAX_Q c /\ MAX_Q c <= 100 /\
  0 <= MAX_DOWNSCALES c /\
  (1 # 2 <= SCALE_STEP c <= 99 # 100)%Q /\
  (forall q, minQ = Some q -> 0 <= q <= 100 -> MIN_Q c = q) /\
  (forall q, maxQ = Some q -> MIN_Q c <= q <= 100 -> MAX_Q c = q) /\
  (forall q, maxQ = Some q -> q < MIN_Q c -> MAX_Q c = MIN_Q c).
Proof.
  cbn zeta. unfold configOfArgs. cbn [TARGET_BYTES MAX_WIDTH MIN_Q MAX_Q
    MAX_DOWNSCALES SCALE_STEP].
  repeat split; try lia.
  - apply Q.min_glb; [discriminate | apply Q.le_max_l].
  - apply Q.le_min_l.
  - intros q -> Hq. cbn [flagOr]. lia.
  - intros q -> Hq. cbn [flagOr] in *. lia.
  - intros q -> Hq. cbn [flagOr] in *. lia.
Qed.

(** ** The batch driver *)

(** Induction on a directory entry and, below it, on the entries of each
    directory that could be read. *)
Lemma Dirent_tree_ind (P : Dirent -> Prop) :
  (forall name, P (FileEnt name)) ->
  (forall name, P (OtherEnt name)) ->
  (forall name err, P (DirEnt name (Rejected err))) ->
  (forall name es, Forall P es -> P (DirEnt name (Fulfilled es))) ->
  forall e, P e.
Proof.
  intros Hfile Hother Hfail Hdir. fix IH 1.
  intros [name | name [es | err] | name].
  - apply Hfile.
  - apply Hdir. induction es as [ | e es IHes]; constructor.
    + apply IH.
    + exact IHes.
  - apply Hfail.
  - apply Hother.
Qed.

Section DriverProperties.

Variable host : Host.
Variable opts : Options.
Variable cfg : Config.

Local Abbreviation walkEntry := (walkEntry host opts).
Local Abbreviation walkEntries := (walkEntries host opts).
Local Abbreviation walk := (walk host opts).
Local Abbreviation Visited := (Visited host opts).
Local Abbreviation search := (search host cfg).
Local Abbreviation outPathOf := (outPathOf host opts).
Local Abbreviation processOne := (processOne host opts cfg).
Local Abbreviation mainLoop := (mainLoop host opts cfg).
Local Abbreviation main := (main host opts cfg).
Local Abbreviation script := (script host opts cfg).

(** A directory entry, by cases (lines 78-81). *)
Lemma walkEntry_dir (dir name : string) (listing : Settled (list Dirent)) :
  walkEntry dir (DirEnt name listing) =
  if String.eqb (path_resolve host (path_join host [dir; name]))
                (path_resolve host (OUT_DIR opts))
  then ([], None)
  else walk (path_join host [dir; name]) listing.
Proof.
  cbn.
  destruct (String.eqb (path_resolve host (path_join host [dir; name]))
                       (path_resolve host (OUT_DIR opts)));
    [reflexivity | ].
  destruct listing as [es | err]; [ | reflexivity].
  induction es as [ | e es IH]; [reflexivity | ].
  cbn. destruct (walkEntry (path_join host [dir; name]) e) as [ys [err | ]];
    [reflexivity | ].
  now rewrite IH.
Qed.

Lemma walkEntries_cons (dir : string) (e : Dirent) (es : list Dirent) :
  walkEntries dir (e :: es) =
  match walkEntry dir e with
  | (ys, Some err) => (ys, Some err)
  | (ys, None) => let '(zs, r) := walkEntries dir es in (ys ++ zs, r)
  end.
Proof. reflexivity. Qed.

(** Every path yielded from a directory that the walk reads is a file
    directly inside a directory that the walk reads. *)
Lemma walkEntry_visited (root : string) :
  forall e dir p,
    Visited root dir ->
    In p (fst (walkEntry dir e)) ->
    exists d name, p = path_join host [d; name] /\ Visited root d.
Proof.
  intros e. induction e as [name | name | name err | name es IH]
    using Dirent_tree_ind; intros dir p Hdir Hin.
  - destruct Hin as [<- | []]. now exists dir, name.
  - destruct Hin.
  - rewrite walkEntry_dir in Hin.
    destruct (String.eqb _ _); destruct Hin.
  - rewrite walkEntry_dir in Hin.
    destruct (String.eqb (path_resolve host (path_join host [dir; name]))
                         (path_resolve host (OUT_DIR opts))) eqn:Hout;
      [destruct Hin | ].
    apply String.eqb_neq in Hout.
    assert (Hsub : Visited root (path_join host [dir; name]))
      by (now apply visited_sub).
    revert Hin. generalize (path_join host [dir; name]) Hsub.
    clear Hout Hsub Hdir. intros sub Hsub.
    unfold walk.
    induction IH as [ | e es He _ IHes]; [intros [] | ].
    rewrite walkEntries_cons.
    destruct (walkEntry sub e) as [ys [err | ]] eqn:Hwe.
    + cbn [fst]. intros Hin. apply (He sub p Hsub). now rewrite Hwe.
    + destruct (walkEntries sub es) as [zs r]. cbn [fst] in *.
      intros Hin. apply in_app_or in Hin as [Hin | Hin].
      * apply (He sub p Hsub). now rewrite Hwe.
      * now apply IHes.
Qed.

(** X12: the walk keeps out of the output directory.  Every path it yields
    is an entry directly inside a directory it has read, and it reads only
    the directory it starts from and sub-directories whose path does not
    resolve to OUT_DIR. *)
Theorem walk_stays_out_of_OUT_DIR
    (dir : string) (listing : Settled (list Dirent)) (p : string) :
  In p (fst (walk dir listing)) ->
  exists d name,
    p = path_join host [d; name] /\ Visited dir d /\
    (d = dir \/
     path_resolve host d <> path_resolve host (OUT_DIR opts)).
Proof.
  intros Hin.
  assert (Hvis : exists d name,
             p = path_join host [d; name] /\ Visited dir d).
  { destruct listing as [es | err]; [ | destruct Hin].
    cbn in Hin. induction es as [ | e es IH]; [destruct Hin | ].
    rewrite walkEntries_cons in Hin.
    destruct (walkEntry dir e) as [ys [err | ]] eqn:Hwe.
    - apply (walkEntry_visited dir e dir p (visited_root host opts dir)).
      now rewrite Hwe.
    - destruct (walkEntries dir es) as [zs r]. cbn [fst] in *.
      apply in_app_or in Hin as [Hin | Hin]; [ | now apply IH].
      apply (walkEntry_visited dir e dir p (visited_root host opts dir)).
      now rewrite Hwe. }
  destruct Hvis as [d [name [-> Hd]]]. exists d, name.
  repeat split; try assumption.
  destruct Hd as [ | d' name' _ Hne]; [now left | now right].
Qed.

Lemma walkEntries_skip (dir : string) (e : Dirent) :
  walkEntry dir e = ([], None) ->
  forall es1 es2,
    walkEntries dir (es1 ++ e :: es2) = walkEntries dir (es1 ++ es2).
Proof.
  intros Hskip es1 es2. induction es1 as [ | x es1 IH].
  - cbn [app]. rewrite walkEntries_cons, Hskip.
    now destruct (walkEntries dir es2).
  - cbn [app]. rewrite !walkEntries_cons, IH. reflexivity.
Qed.

(** X13: what the output directory holds never matters.  A sub-directory
    whose path resolves to OUT_DIR is not read: the walk yields the same
    paths and fails or not in the same way as if that entry were absent,
    even when the directory cannot be read. *)
Theorem walk_ignores_OUT_DIR
    (dir name : string) (inside : Settled (list Dirent))
    (es1 es2 : list Dirent) :
  path_resolve host (path_join host [dir; name])
  = path_resolve host (OUT_DIR opts) ->
  walk dir (Fulfilled (es1 ++ DirEnt name inside :: es2))
  = walk dir (Fulfilled (es1 ++ es2)).
Proof.
  intros Hout. cbn. apply walkEntries_skip.
  rewrite walkEntry_dir. apply String.eqb_eq in Hout. now rewrite Hout.
Qed.

Lemma searchActions_encodes (p : string) (l : Log) (a : Action) :
  In a (searchActions p l) -> exists w q, a = EncodeImage p w q.
Proof.
  unfold searchActions. rewrite in_flat_map.
  intros [[n w | w q] [_ Hin]]; [destruct Hin | ].
  destruct Hin as [<- | []]. now exists w, q.
Qed.

(** processOne on a path with a valid extension, by the answers of the
    host (lines 149-183). *)
Lemma processOne_cases (p : string) :
  VALID_EXT (toLowerCase host (path_extname host p)) = true ->
  let rel := path_relative host (cwd host) p in
  let out := outPathOf p (toLowerCase host (path_extname host p)) in
  let d := path_dirname host out in
  let srcSize := match fs_stat host p with
                 | Fulfilled sz => sz
                 | Rejected _ => 0
                 end in
  processOne p =
  match sharp_metadata host p with
  | Rejected msg => (Fulfilled None, [Stat p; Metadata p; Warn rel msg])
  | Fulfilled mw =>
      match fs_mkdir host d with
      | Rejected e => (Rejected e, [Stat p; Metadata p; Mkdir d])
      | Fulfilled _ =>
          let m := findBestEncode cfg (sharp_webp host p) mw in
          match outcome m with
          | Rejected e =>
              (Rejected e,
               [Stat p; Metadata p; Mkdir d] ++ searchActions p (trace m))
          | Fulfilled best =>
              match fs_writeFile host out (buf best) with
              | Rejected e =>
                  (Rejected e,
                   [Stat p; Metadata p; Mkdir d] ++ searchActions p (trace m)
                   ++ [WriteFile out (buf best)])
              | Fulfilled _ =>
                  (Fulfilled
                     (Some {| outPath := out; sum_bytes := bytes best;
                              sum_width := width best;
                              sum_quality := quality best |}),
                   [Stat p; Metadata p; Mkdir d] ++ searchActions p (trace m)
                   ++ [WriteFile out (buf best)]
                   ++ (if REPLACE opts && DELETE_ORIG opts
                       then [Unlink p] else [])
                   ++ [LogResult (verdictOf cfg best) rel
                                 (path_relative host (cwd host) out)
                                 srcSize (bytes best) (width best)
                                 (quality best)])
              end
          end
      end
  end.
Proof.
  intros Hext. cbn zeta.
  unfold processOne, search, ioBind, ioCatch, ioCall, ioRet.
  rewrite Hext. cbn [negb].
  destruct (fs_stat host p) as [sz | e0];
    destruct (sharp_metadata host p) as [mw | e1]; cbn; try reflexivity;
    destruct (fs_mkdir host _) as [[] | e2]; cbn; try reflexivity;
    destruct (outcome (findBestEncode cfg (sharp_webp host p) mw))
      as [best | e3]; cbn; try reflexivity;
    destruct (fs_writeFile host _ (buf best)) as [[] | e4]; cbn;
      try reflexivity;
    destruct (REPLACE opts && DELETE_ORIG opts); cbn; try reflexivity;
    destruct (fs_unlink host p) as [[] | e5]; reflexivity.
Qed.

Lemma processOne_not_image (p : string) :
  VALID_EXT (toLowerCase host (path_extname host p)) = false ->
  processOne p = (Fulfilled None, []).
Proof. intros Hext. unfold processOne. now rewrite Hext. Qed.

(** No encoder call is a deletion, a write or a log line. *)
Ltac not_in_search H :=
  apply searchActions_encodes in H; destruct H as [? [? H]]; discriminate H.

(** X14: the original is deleted only after its WebP is safely written.
    processOne unlinks nothing but the file it was given, only when both
    REPLACE and DELETE_ORIG are set, and only right after a writeFile of
    the outcome's buffer to the output path has succeeded. *)
Theorem original_deleted_only_after_write (p q : string) :
  In (Unlink q) (snd (processOne p)) ->
  q = p /\ REPLACE opts = true /\ DELETE_ORIG opts = true /\
  exists mw best pre post,
    sharp_metadata host p = Fulfilled mw /\
    outcome (findBestEncode cfg (sharp_webp host p) mw) = Fulfilled best /\
    fs_writeFile host
      (outPathOf p (toLowerCase host (path_extname host p))) (buf best)
    = Fulfilled tt /\
    snd (processOne p) =
    pre ++ WriteFile (outPathOf p (toLowerCase host (path_extname host p)))
                     (buf best)
        :: Unlink p :: post /\
    ~ In (Unlink p) pre /\ ~ In (Unlink p) post.
Proof.
  destruct (VALID_EXT (toLowerCase host (path_extname host p))) eqn:Hext.
  2:{ rewrite (processOne_not_image p Hext). intros []. }
  rewrite (processOne_cases p Hext). cbn zeta.
  destruct (sharp_metadata host p) as [mw | e1].
  2:{ cbn. intros [H | [H | [H | []]]]; discriminate. }
  destruct (fs_mkdir host _) as [[] | e2].
  2:{ cbn. intros [H | [H | [H | []]]]; discriminate. }
  destruct (outcome (findBestEncode cfg (sharp_webp host p) mw))
    as [best | e3] eqn:Hbest.
  2:{ cbn. intros [H | [H | [H | H]]]; try discriminate. not_in_search H. }
  destruct (fs_writeFile host _ (buf best)) as [[] | e4] eqn:Hwrite.
  2:{ cbn. intros [H | [H | [H | H]]]; try discriminate.
      apply in_app_or in H as [H | [H | []]]; [not_in_search H | discriminate]. }
  destruct (REPLACE opts) eqn:Hrep; destruct (DELETE_ORIG opts) eqn:Hdel;
    cbn [andb snd];
    try (cbn; intros [H | [H | [H | H]]]; try discriminate;
         apply in_app_or in H as [H | [H | [H | []]]];
         [not_in_search H | discriminate | discriminate]).
  intros Hin.
  assert (Hq : q = p).
  { cbn in Hin. destruct Hin as [H | [H | [H | H]]]; try discriminate.
    apply in_app_or in H as [H | [H | [H | [H | []]]]];
      [not_in_search H | discriminate | now injection H | discriminate]. }
  subst q. repeat split.
  exists mw, best,
    ([Stat p; Metadata p;
      Mkdir (path_dirname host
               (outPathOf p (toLowerCase host (path_extname host p))))]
     ++ searchActions p (trace (findBestEncode cfg (sharp_webp host p) mw))),
    [LogResult (verdictOf cfg best) (path_relative host (cwd host) p)
       (path_relative host (cwd host)
          (outPathOf p (toLowerCase host (path_extname host p))))
       match fs_stat host p with
       | Fulfilled sz => sz
       | Rejected _ => 0
       end (bytes best) (width best) (quality best)].
  repeat split; try assumption.
  - cbn. intros [H | [H | [H | H]]]; try discriminate. not_in_search H.
  - cbn. intros [H | []]. discriminate.
Qed.

(** X15: processOne rejects for three reasons only: the output directory
    could not be made, the search rejected (an encoder call failed), or
    the WebP could not be written.  A failing stat, unreadable metadata or
    a failing unlink never make it reject.  When it rejects, the original
    has not been deleted and no result line has been logged. *)
Theorem processOne_rejects_only_for (p : string) (err : string) :
  fst (processOne p) = Rejected err ->
  Forall (fun a => match a with
                   | Unlink _ | LogResult _ _ _ _ _ _ _ => False
                   | _ => True
                   end) (snd (processOne p)) /\
  exists mw,
    sharp_metadata host p = Fulfilled mw /\
    let out := outPathOf p (toLowerCase host (path_extname host p)) in
    let m := findBestEncode cfg (sharp_webp host p) mw in
    fs_mkdir host (path_dirname host out) = Rejected err \/
    outcome m = Rejected err \/
    exists best,
      outcome m = Fulfilled best /\
      fs_writeFile host out (buf best) = Rejected err.
Proof.
  destruct (VALID_EXT (toLowerCase host (path_extname host p))) eqn:Hext.
  2:{ rewrite (processOne_not_image p Hext). discriminate. }
  rewrite (processOne_cases p Hext). cbn zeta.
  destruct (sharp_metadata host p) as [mw | e1]; [ | discriminate].
  destruct (fs_mkdir host _) as [[] | e2] eqn:Hmk.
  2:{ intros [= ->]. split; [repeat constructor | ].
      exists mw. split; [reflexivity | now left]. }
  destruct (outcome (findBestEncode cfg (sharp_webp host p) mw))
    as [best | e3] eqn:Hbest.
  2:{ intros [= ->]. split.
      - cbn [snd]. apply Forall_app. split; [repeat constructor | ].
        apply Forall_forall. intros a Ha.
        apply searchActions_encodes in Ha. now destruct Ha as [w [q ->]].
      - exists mw. split; [reflexivity | right; now left]. }
  destruct (fs_writeFile host _ (buf best)) as [[] | e4] eqn:Hwrite;
    [discriminate | ].
  intros [= ->]. split.
  - cbn [snd]. apply Forall_app. split; [repeat constructor | ].
    apply Forall_app. split; [ | repeat constructor].
    apply Forall_forall. intros a Ha.
    apply searchActions_encodes in Ha. now destruct Ha as [w [q ->]].
  - exists mw. split; [reflexivity | ]. right. right. now exists best.
Qed.

(** X16: the result line never reads "over".  Whenever processOne logs a
    result, the verdict is the check mark and the size is within
    TARGET_BYTES, or the verdict is best-effort; and the size logged is the
    length of the buffer that was written to the output path. *)
Theorem logged_verdict_is_never_over
    (p verdict rel out : string) (srcSize size w q : Z) :
  In (LogResult verdict rel out srcSize size w q) (snd (processOne p)) ->
  (verdict = "✓"%string /\ size <= TARGET_BYTES cfg \/
   verdict = "best-effort"%string) /\
  exists b,
    In (WriteFile (outPathOf p (toLowerCase host (path_extname host p))) b)
       (snd (processOne p)) /\
    buf_length b = size.
Proof.
  destruct (VALID_EXT (toLowerCase host (path_extname host p))) eqn:Hext.
  2:{ rewrite (processOne_not_image p Hext). intros []. }
  rewrite (processOne_cases p Hext). cbn zeta.
  destruct (sharp_metadata host p) as [mw | e1].
  2:{ cbn. intros [H | [H | [H | []]]]; discriminate. }
  destruct (fs_mkdir host _) as [[] | e2].
  2:{ cbn. intros [H | [H | [H | []]]]; discriminate. }
  destruct (outcome (findBestEncode cfg (sharp_webp host p) mw))
    as [best | e3] eqn:Hbest.
  2:{ cbn. intros [H | [H | [H | H]]]; try discriminate. not_in_search H. }
  destruct (fs_writeFile host _ (buf best)) as [[] | e4] eqn:Hwrite.
  2:{ cbn. intros [H | [H | [H | H]]]; try discriminate.
      apply in_app_or in H as [H | [H | []]]; [not_in_search H | discriminate]. }
  cbn [snd]. intros Hin.
  assert (Hlog : verdict = verdictOf cfg best /\ size = bytes best).
  { cbn in Hin. destruct Hin as [H | [H | [H | H]]]; try discriminate.
    apply in_app_or in H as [H | [H | H]];
      [not_in_search H | discriminate | ].
    apply in_app_or in H as [H | [H | []]].
    - destruct (REPLACE opts && DELETE_ORIG opts);
        [destruct H as [H | []]; discriminate | destruct H].
    - injection H as <- _ _ _ <- _ _. now split. }
  destruct Hlog as [-> ->].
  destruct (outcome_shape cfg _ mw best Hbest)
    as [[w' [q' [b [-> Hlen]]]] | [b ->]].
  - split.
    + left. unfold verdictOf. cbn [bestEffort bytes candidate truthy].
      apply Z.leb_le in Hlen as Hleb. now rewrite Hleb.
    + exists b. split; [ | reflexivity].
      apply in_or_app. right. apply in_or_app. right. now left.
  - split.
    + right. reflexivity.
    + exists b. split; [ | reflexivity].
      apply in_or_app. right. apply in_or_app. right. now left.
Qed.

(** The loop of main, for any paths and any starting count: each path is
    handled on its own. *)
Lemma mainLoop_spec (paths : list string) :
  forall count,
    mainLoop paths count =
    (Fulfilled (count + Z.of_nat (length (filter (counted host opts cfg) paths))),
     flat_map (perFile host opts cfg) paths).
Proof.
  induction paths as [ | p paths IH]; intros count.
  - cbn. now rewrite Z.add_0_r.
  - cbn [mainLoop filter flat_map]. unfold counted at 1, perFile at 1.
    destruct (VALID_EXT (toLowerCase host (path_extname host p))).
    + unfold ioBind, ioCatch, ioCall, ioRet.
      destruct (processOne p) as [[r | msg] acts]; cbn; rewrite IH.
      * do 2 f_equal. lia.
      * reflexivity.
    + cbn. now rewrite IH.
Qed.

(** X17: one image that fails does not stop the batch.  The script never
    rejects: it handles every path yielded by the walk on its own (the
    actions of processOne, followed by an error line when it rejects), then
    logs the number of paths whose processOne did not reject; if a
    directory could not be read it handles the paths yielded before that,
    logs the fatal error and exits with code 1 instead. *)
Theorem script_runs_every_image (listing : Settled (list Dirent)) :
  script listing =
  (Fulfilled tt,
   LogStart ::
   flat_map (perFile host opts cfg) (fst (walk (SRC_DIR opts) listing)) ++
   match snd (walk (SRC_DIR opts) listing) with
   | None =>
       [LogDone (Z.of_nat (length (filter (counted host opts cfg)
                                     (fst (walk (SRC_DIR opts) listing)))))]
   | Some err => [LogFatal err; Exit 1]
   end).
Proof.
  unfold script, main.
  destruct (walk (SRC_DIR opts) listing) as [paths [err | ]]; cbn [fst snd];
    unfold ioBind, ioCatch, ioCall, ioRet; rewrite mainLoop_spec; cbn;
    rewrite ?app_nil_r; reflexivity.
Qed.

(** X18: the count of the last line includes the images that were skipped.
    An image with a valid extension whose metadata cannot be read is
    counted as processed although processOne only warns: it makes no
    directory, calls no encoder, writes and deletes nothing. *)
Theorem unreadable_image_is_counted (p msg : string) :
  VALID_EXT (toLowerCase host (path_extname host p)) = true ->
  sharp_metadata host p = Rejected msg ->
  counted host opts cfg p = true /\
  perFile host opts cfg p =
  [Stat p; Metadata p; Warn (path_relative host (cwd host) p) msg].
Proof.
  intros Hext Hmeta. unfold counted, perFile.
  rewrite Hext, (processOne_cases p Hext). cbn zeta. rewrite Hmeta.
  split; reflexivity.
Qed.

End DriverProperties.

(** ** The further properties on concrete runs *)

Lemma bestEffort_outcome_over_budget_witness :
  MIN_Q tinyConfig <= MAX_Q tinyConfig /\
  0 <= MAX_DOWNSCALES tinyConfig /\
  outcome (findBestEncode tinyConfig (linearEncoder 1 60) (Some 2000))
  = Fulfilled overOutcome /\
  bestEffort overOutcome = Some true /\
  TARGET_BYTES tinyConfig < bytes overOutcome /\
  In (Encode (startWidth tinyConfig (Some 2000)) (MIN_Q tinyConfig))
     (trace (descentLoop tinyConfig (linearEncoder 1 60)
               (startWidth tinyConfig (Some 2000)) 0)) /\
  trace (findBestEncode tinyConfig (linearEncoder 1 60) (Some 2000)) =
  trace (descentLoop tinyConfig (linearEncoder 1 60)
           (startWidth tinyConfig (Some 2000)) 0)
  ++ [Encode (startWidth tinyConfig (Some 2000)) (MIN_Q tinyConfig)].
Proof.
  assert (H1 : MIN_Q tinyConfig <= MAX_Q tinyConfig)
    by (vm_compute; discriminate).
  assert (H2 : 0 <= MAX_DOWNSCALES tinyConfig) by (vm_compute; discriminate).
  assert (H3 : outcome (findBestEncode tinyConfig (linearEncoder 1 60)
                          (Some 2000)) = Fulfilled overOutcome)
    by (vm_compute; reflexivity).
  assert (H4 : bestEffort overOutcome = Some true) by reflexivity.
  repeat (split; [assumption | ]).
  exact (bestEffort_outcome_over_budget tinyConfig (linearEncoder 1 60)
           (Some 2000) overOutcome H1 H2 H3 H4).
Defined.

Lemma outcome_is_an_encoder_answer_witness :
  MIN_Q tinyConfig <= MAX_Q tinyConfig /\
  outcome (findBestEncode tinyConfig (linearEncoder 1 125) (Some 2000))
  = Fulfilled fitOutcome /\
  linearEncoder 1 125 (width fitOutcome) (quality fitOutcome)
  = Fulfilled (buf fitOutcome) /\
  bytes fitOutcome = buf_length (buf fitOutcome) /\
  MIN_Q tinyConfig <= quality fitOutcome <= MAX_Q tinyConfig /\
  In (Encode (width fitOutcome) (quality fitOutcome))
     (trace (findBestEncode tinyConfig (linearEncoder 1 125) (Some 2000))).
Proof.
  assert (H1 : MIN_Q tinyConfig <= MAX_Q tinyConfig)
    by (vm_compute; discriminate).
  assert (H2 : outcome (findBestEncode tinyConfig (linearEncoder 1 125)
                          (Some 2000)) = Fulfilled fitOutcome)
    by (vm_compute; reflexivity).
  repeat (split; [assumption | ]).
  exact (outcome_is_an_encoder_answer tinyConfig (linearEncoder 1 125)
           (Some 2000) fitOutcome H1 H2).
Defined.

Lemma narrower_only_when_wider_fails_witness :
  MIN_Q tinyConfig <= MAX_Q tinyConfig /\
  outcome (findBestEncode tinyConfig (linearEncoder 1 60) (Some 2000))
  = Fulfilled overOutcome /\
  (bestEffort overOutcome = None ->
   exists pre,
     roundWidths
       (trace (findBestEncode tinyConfig (linearEncoder 1 60) (Some 2000)))
     = pre ++ [width overOutcome] /\
     Forall (fun w' => exceeds tinyConfig (linearEncoder 1 60) w'
                         (MIN_Q tinyConfig)) pre) /\
  (bestEffort overOutcome = Some true ->
   Forall (fun w' => exceeds tinyConfig (linearEncoder 1 60) w'
                       (MIN_Q tinyConfig))
          (roundWidths
             (trace (findBestEncode tinyConfig (linearEncoder 1 60)
                       (Some 2000))))).
Proof.
  assert (H1 : MIN_Q tinyConfig <= MAX_Q tinyConfig)
    by (vm_compute; discriminate).
  assert (H2 : outcome (findBestEncode tinyConfig (linearEncoder 1 60)
                          (Some 2000)) = Fulfilled overOutcome)
    by (vm_compute; reflexivity).
  repeat (split; [assumption | ]).
  exact (narrower_only_when_wider_fails tinyConfig (linearEncoder 1 60)
           (Some 2000) overOutcome H1 H2).
Defined.

Lemma outcome_width_within_bounds_witness :
  (1 # 2 <= SCALE_STEP tinyConfig <= 99 # 100)%Q /\
  MIN_Q tinyConfig <= MAX_Q tinyConfig /\
  320 <= startWidth tinyConfig (Some 2000) /\
  outcome (findBestEncode tinyConfig (linearEncoder 1 125) (Some 2000))
  = Fulfilled fitOutcome /\
  320 <= width fitOutcome <= startWidth tinyConfig (Some 2000) /\
  width fitOutcome <= MAX_WIDTH tinyConfig /\
  (forall n, Some 2000 = Some n -> n <> 0 -> width fitOutcome <= n).
Proof.
  assert (H1 : (1 # 2 <= SCALE_STEP tinyConfig <= 99 # 100)%Q)
    by (split; vm_compute; discriminate).
  assert (H2 : MIN_Q tinyConfig <= MAX_Q tinyConfig)
    by (vm_compute; discriminate).
  assert (H3 : 320 <= startWidth tinyConfig (Some 2000))
    by (vm_compute; discriminate).
  assert (H4 : outcome (findBestEncode tinyConfig (linearEncoder 1 125)
                          (Some 2000)) = Fulfilled fitOutcome)
    by (vm_compute; reflexivity).
  repeat (split; [assumption | ]).
  exact (outcome_width_within_bounds tinyConfig (linearEncoder 1 125)
           (Some 2000) fitOutcome H1 H2 H3 H4).
Defined.

Lemma no_downscale_when_start_fits_witness :
  MIN_Q tinyConfig <= MAX_Q tinyConfig /\
  0 <= MAX_DOWNSCALES tinyConfig /\
  answersOn (linearEncoder 1 125) (startWidth tinyConfig (Some 2000))
    (MIN_Q tinyConfig) (MAX_Q tinyConfig) /\
  monotoneOn (linearEncoder 1 125) (startWidth tinyConfig (Some 2000))
    (MIN_Q tinyConfig) (MAX_Q tinyConfig) /\
  fits tinyConfig (linearEncoder 1 125) (startWidth tinyConfig (Some 2000))
    (MIN_Q tinyConfig) /\
  exists q b,
    outcome (findBestEncode tinyConfig (linearEncoder 1 125) (Some 2000))
    = Fulfilled (candidate (startWidth tinyConfig (Some 2000)) q b) /\
    MIN_Q tinyConfig <= q <= MAX_Q tinyConfig /\
    linearEncoder 1 125 (startWidth tinyConfig (Some 2000)) q = Fulfilled b /\
    buf_length b <= TARGET_BYTES tinyConfig /\
    (forall q', q < q' <= MAX_Q tinyConfig ->
       exceeds tinyConfig (linearEncoder 1 125)
         (startWidth tinyConfig (Some 2000)) q') /\
    roundWidths
      (trace (findBestEncode tinyConfig (linearEncoder 1 125) (Some 2000)))
    = [startWidth tinyConfig (Some 2000)].
Proof.
  assert (H1 : MIN_Q tinyConfig <= MAX_Q tinyConfig)
    by (vm_compute; discriminate).
  assert (H2 : 0 <= MAX_DOWNSCALES tinyConfig) by (vm_compute; discriminate).
  assert (H3 : answersOn (linearEncoder 1 125)
                 (startWidth tinyConfig (Some 2000))
                 (MIN_Q tinyConfig) (MAX_Q tinyConfig))
    by (intros q _; apply linearEncoder_answers).
  assert (H4 : monotoneOn (linearEncoder 1 125)
                 (startWidth tinyConfig (Some 2000))
                 (MIN_Q tinyConfig) (MAX_Q tinyConfig))
    by (apply linearEncoder_monotone; [lia | lia | vm_compute; discriminate]).
  assert (H5 : fits tinyConfig (linearEncoder 1 125)
                 (startWidth tinyConfig (Some 2000)) (MIN_Q tinyConfig))
    by (eexists; split; [reflexivity | vm_compute; discriminate]).
  repeat (split; [assumption | ]).
  exact (no_downscale_when_start_fits tinyConfig (linearEncoder 1 125)
           (Some 2000) H1 H2 H3 H4 H5).
Defined.

Lemma bestEffort_only_at_floor_or_limit_witness :
  (1 # 2 <= SCALE_STEP tinyConfig <= 99 # 100)%Q /\
  0 <= MAX_DOWNSCALES tinyConfig /\
  outcome (findBestEncode tinyConfig (linearEncoder 1 60) (Some 2000))
  = Fulfilled overOutcome /\
  bestEffort overOutcome = Some true /\
  (last (roundWidths
           (trace (findBestEncode tinyConfig (linearEncoder 1 60)
                     (Some 2000)))) 0 = 320 \/
   Z.of_nat (length (roundWidths
     (trace (findBestEncode tinyConfig (linearEncoder 1 60) (Some 2000)))))
   = MAX_DOWNSCALES tinyConfig + 1).
Proof.
  assert (H1 : (1 # 2 <= SCALE_STEP tinyConfig <= 99 # 100)%Q)
    by (split; vm_compute; discriminate).
  assert (H2 : 0 <= MAX_DOWNSCALES tinyConfig) by (vm_compute; discriminate).
  assert (H3 : outcome (findBestEncode tinyConfig (linearEncoder 1 60)
                          (Some 2000)) = Fulfilled overOutcome)
    by (vm_compute; reflexivity).
  assert (H4 : bestEffort overOutcome = Some true) by reflexivity.
  repeat (split; [assumption | ]).
  exact (bestEffort_only_at_floor_or_limit tinyConfig (linearEncoder 1 60)
           (Some 2000) overOutcome H1 H2 H3 H4).
Defined.

Lemma parseArgs_last_flag_wins_witness :
  ~ In ("--" ++ "maxWidth")%string ["800"; "--replace"; "false"]%string /\
  mapGet (parseArgs (["--target"; "200"]%string
                     ++ ("--" ++ "maxWidth")%string
                        :: ["800"; "--replace"; "false"]%string))
         "maxWidth"
  = Some (valueAfter ["800"; "--replace"; "false"]%string).
Proof.
  assert (H1 : ~ In ("--" ++ "maxWidth")%string
                    ["800"; "--replace"; "false"]%string)
    by (intros H; repeat (destruct H as [H | H]; [discriminate H | ]);
        exact H).
  split; [exact H1 | ].
  exact (parseArgs_last_flag_wins "maxWidth" ["--target"; "200"]%string
           ["800"; "--replace"; "false"]%string H1).
Defined.

Lemma parseArgs_values_witness :
  mapGet (parseArgs sampleArgv) "replace" = Some (ArgString "false") /\
  "false"%string <> ""%string /\ startsWithDashes "false" = false /\
  exists pre post,
    sampleArgv = pre ++ ("--" ++ "replace")%string :: "false"%string :: post.
Proof.
  assert (H1 : mapGet (parseArgs sampleArgv) "replace"
               = Some (ArgString "false")) by reflexivity.
  split; [exact H1 | ].
  exact (parseArgs_values "replace" "false" sampleArgv H1).
Defined.

Lemma walk_stays_out_of_OUT_DIR_witness :
  In "/src/sub/b.jpg"%string
     (fst (walk sampleHost batchOpts "/src" (Fulfilled sampleEntries))) /\
  exists d name,
    "/src/sub/b.jpg"%string = path_join sampleHost [d; name] /\
    Visited sampleHost batchOpts "/src" d /\
    (d = "/src"%string \/
     path_resolve sampleHost d
     <> path_resolve sampleHost (OUT_DIR batchOpts)).
Proof.
  assert (H1 : In "/src/sub/b.jpg"%string
                  (fst (walk sampleHost batchOpts "/src"
                          (Fulfilled sampleEntries))))
    by (vm_compute; tauto).
  split; [exact H1 | ].
  exact (walk_stays_out_of_OUT_DIR sampleHost batchOpts "/src"
           (Fulfilled sampleEntries) "/src/sub/b.jpg" H1).
Defined.

Lemma walk_ignores_OUT_DIR_witness :
  path_resolve sampleHost (path_join sampleHost ["/src"; "opt"]%string)
  = path_resolve sampleHost (OUT_DIR batchOpts) /\
  walk sampleHost batchOpts "/src"
    (Fulfilled ([FileEnt "a.png"]
                ++ DirEnt "opt" (Rejected "EACCES")
                   :: [OtherEnt "link";
                       DirEnt "sub" (Fulfilled [FileEnt "b.jpg"])]))
  = walk sampleHost batchOpts "/src"
      (Fulfilled ([FileEnt "a.png"]
                  ++ [OtherEnt "link";
                      DirEnt "sub" (Fulfilled [FileEnt "b.jpg"])])).
Proof.
  assert (H1 : path_resolve sampleHost
                 (path_join sampleHost ["/src"; "opt"]%string)
               = path_resolve sampleHost (OUT_DIR batchOpts))
    by reflexivity.
  split; [exact H1 | ].
  exact (walk_ignores_OUT_DIR sampleHost batchOpts "/src" "opt"
           (Rejected "EACCES") [FileEnt "a.png"]
           [OtherEnt "link"; DirEnt "sub" (Fulfilled [FileEnt "b.jpg"])] H1).
Defined.

Lemma original_deleted_only_after_write_witness :
  In (Unlink "/src/a.png")
     (snd (processOne sampleHost replaceOpts tinyConfig "/src/a.png")) /\
  "/src/a.png"%string = "/src/a.png"%string /\
  REPLACE replaceOpts = true /\ DELETE_ORIG replaceOpts = true /\
  exists mw best pre post,
    sharp_metadata sampleHost "/src/a.png" = Fulfilled mw /\
    outcome (findBestEncode tinyConfig (sharp_webp sampleHost "/src/a.png") mw)
    = Fulfilled best /\
    fs_writeFile sampleHost
      (outPathOf sampleHost replaceOpts "/src/a.png"
         (toLowerCase sampleHost (path_extname sampleHost "/src/a.png")))
      (buf best)
    = Fulfilled tt /\
    snd (processOne sampleHost replaceOpts tinyConfig "/src/a.png") =
    pre ++ WriteFile
             (outPathOf sampleHost replaceOpts "/src/a.png"
                (toLowerCase sampleHost
                   (path_extname sampleHost "/src/a.png")))
             (buf best)
        :: Unlink "/src/a.png" :: post /\
    ~ In (Unlink "/src/a.png") pre /\ ~ In (Unlink "/src/a.png") post.
Proof.
  assert (H1 : In (Unlink "/src/a.png")
                  (snd (processOne sampleHost replaceOpts tinyConfig
                          "/src/a.png")))
    by (vm_compute; tauto).
  split; [exact H1 | ].
  exact (original_deleted_only_after_write sampleHost replaceOpts tinyConfig
           "/src/a.png" "/src/a.png" H1).
Defined.

Lemma processOne_rejects_only_for_witness :
  fst (processOne noMkdirHost
         replaceOpts tinyConfig "/src/a.png")
  = Rejected "EACCES" /\
  Forall (fun a => match a with
                   | Unlink _ | LogResult _ _ _ _ _ _ _ => False
                   | _ => True
                   end)
         (snd (processOne noMkdirHost
                 replaceOpts tinyConfig "/src/a.png")) /\
  exists mw,
    sharp_metadata noMkdirHost "/src/a.png"
    = Fulfilled mw /\
    let out := outPathOf noMkdirHost replaceOpts "/src/a.png"
                 (toLowerCase noMkdirHost
                    (path_extname noMkdirHost "/src/a.png")) in
    let m := findBestEncode tinyConfig
               (sharp_webp noMkdirHost "/src/a.png") mw in
    fs_mkdir noMkdirHost (path_dirname noMkdirHost out) = Rejected "EACCES" \/
    outcome m = Rejected "EACCES" \/
    exists best,
      outcome m = Fulfilled best /\
      fs_writeFile noMkdirHost out (buf best) = Rejected "EACCES".
Proof.
  assert (H1 : fst (processOne noMkdirHost
                      replaceOpts tinyConfig "/src/a.png")
               = Rejected "EACCES")
    by (vm_compute; reflexivity).
  split; [exact H1 | ].
  exact (processOne_rejects_only_for
           noMkdirHost
           replaceOpts tinyConfig "/src/a.png" "EACCES" H1).
Defined.

Lemma logged_verdict_is_never_over_witness :
  In (LogResult "✓" "/src/a.png" "/src/a.webp" 5000 1024 1600 80)
     (snd (processOne sampleHost replaceOpts tinyConfig "/src/a.png")) /\
  ("✓"%string = "✓"%string /\ 1024 <= TARGET_BYTES tinyConfig \/
   "✓"%string = "best-effort"%string) /\
  exists b,
    In (WriteFile
          (outPathOf sampleHost replaceOpts "/src/a.png"
             (toLowerCase sampleHost (path_extname sampleHost "/src/a.png")))
          b)
       (snd (processOne sampleHost replaceOpts tinyConfig "/src/a.png")) /\
    buf_length b = 1024.
Proof.
  assert (H1 : In (LogResult "✓" "/src/a.png" "/src/a.webp" 5000 1024 1600 80)
                  (snd (processOne sampleHost replaceOpts tinyConfig
                          "/src/a.png")))
    by (vm_compute; tauto).
  split; [exact H1 | ].
  exact (logged_verdict_is_never_over sampleHost replaceOpts tinyConfig
           "/src/a.png" "✓" "/src/a.png" "/src/a.webp" 5000 1024 1600 80 H1).
Defined.

Lemma unreadable_image_is_counted_witness :
  VALID_EXT (toLowerCase unreadableHost
               (path_extname unreadableHost "/src/a.png")) = true /\
  sharp_metadata unreadableHost "/src/a.png"
  = Rejected "unsupported image format" /\
  counted unreadableHost batchOpts tinyConfig "/src/a.png" = true /\
  perFile unreadableHost batchOpts tinyConfig "/src/a.png" =
  [Stat "/src/a.png"; Metadata "/src/a.png";
   Warn (path_relative unreadableHost (cwd unreadableHost) "/src/a.png")
        "unsupported image format"].
Proof.
  assert (H1 : VALID_EXT (toLowerCase unreadableHost
                            (path_extname unreadableHost "/src/a.png"))
               = true)
    by reflexivity.
  assert (H2 : sharp_metadata unreadableHost "/src/a.png"
               = Rejected "unsupported image format")
    by reflexivity.
  split; [exact H1 | ]. split; [exact H2 | ].
  exact (unreadable_image_is_counted unreadableHost batchOpts tinyConfig
           "/src/a.png" "unsupported image format" H1 H2).
Defined.

(** The sample batch, in both modes: below [/src/opt] the unreadable output
    directory is skipped; in replace mode it is read, and the run ends
    fatally after the first image. *)
Example sample_batch_paths :
  walk sampleHost batchOpts "/src" (Fulfilled sampleEntries)
  = (["/src/a.png"; "/src/sub/b.jpg"]%string, None) /\
  walk sampleHost replaceOpts "/src" (Fulfilled sampleEntries)
  = (["/src/a.png"]%string, Some "EACCES"%string).
Proof. split; reflexivity. Qed.
